(** * RenderNode: dirty tracking and element index of the render tree

    A shallow embedding of the [RenderNode] class of mobiledoc-kit
    (the last module of [src/dist/content-kit-editor.js]) together with
    the properties of its methods: dirty propagation along the parent
    chain, the element setter and the element index of the render tree,
    removal and destruction, the attachment test and the card policy of
    [reparsesMutationOfChildNode].

    JavaScript objects are mutable and shared by reference, so render
    nodes and render trees live in a store indexed by references and
    every method is a computation over that store which returns, throws,
    or runs out of fuel. *)

From stdpp Require Import strings list fin_maps gmap.
From Stdlib Require Import Lia Ascii.

Set Default Proof Using "Type".
Set Warnings "-clear-no-such-hyp".

(** ** Values *)

(** References to render nodes and render trees, and DOM nodes, which the
    code only ever compares by identity. *)
Abbreviation node_ref := nat (only parsing).
Abbreviation tree_ref := nat (only parsing).
Abbreviation Element := nat (only parsing).

(** The post model is opaque to this class beyond [isCardSection]. *)
Record PostNode := mkPostNode {
  post_id : nat;
  isCardSection : bool;
}.

(** The object stored in the [cardNode] slot; the class reads its
    [element] only. *)
Record CardNode := mkCardNode {
  card_element : option Element;
}.

(** The two closures the [childNodes] getter hands to its list, as data:
    [item => item.parent = this] and [item => item.destroy()]. *)
Inductive ItemHook :=
  | HookSetParent (owner : node_ref)
  | HookDestroy.

(** Modelled from the spec: the [LinkedList] class (utils/linked-list) is
    not part of the sources; a list is its ordered sequence of items and
    the optional [adoptItem] and [freeItem] hooks it was configured with. *)
Record LinkedList := mkLinkedList {
  items : list node_ref;
  adoptItem : option ItemHook;
  freeItem : option ItemHook;
}.

(** The fields that the constructor of [RenderNode] sets. The class
    extends [LinkedItem], which is not part of the sources; no method
    below reads the links it inherits, and membership in a child list is
    the [items] of that list. *)
Record RenderNode := mkRenderNode {
  parent : option node_ref;
  isDirty : bool;
  isRemoved : bool;
  postNode : option PostNode;
  _childNodes : option LinkedList;
  _element : option Element;
  renderTree : option tree_ref;
  markupElement : option Element;
  headTextNode : option Element;
  tailTextNode : option Element;
  atomNode : option Element;
  cardNode : option CardNode;
}.

(** Modelled from the spec: the [RenderTree] class is not part of the
    sources; it owns a root DOM element and the element-to-RenderNode
    index, a mapping with unique keys. *)
Record RenderTree := mkRenderTree {
  rootElement : Element;
  elements : gmap Element node_ref;
}.

Record Heap := mkHeap {
  nodes : gmap node_ref RenderNode;
  trees : gmap tree_ref RenderTree;
}.

(** Field assignments. *)
Definition set_parent (v : option node_ref) (nd : RenderNode) : RenderNode :=
  mkRenderNode v (isDirty nd) (isRemoved nd) (postNode nd) (_childNodes nd)
    (_element nd) (renderTree nd) (markupElement nd) (headTextNode nd)
    (tailTextNode nd) (atomNode nd) (cardNode nd).

Definition set_isDirty (v : bool) (nd : RenderNode) : RenderNode :=
  mkRenderNode (parent nd) v (isRemoved nd) (postNode nd) (_childNodes nd)
    (_element nd) (renderTree nd) (markupElement nd) (headTextNode nd)
    (tailTextNode nd) (atomNode nd) (cardNode nd).

Definition set_isRemoved (v : bool) (nd : RenderNode) : RenderNode :=
  mkRenderNode (parent nd) (isDirty nd) v (postNode nd) (_childNodes nd)
    (_element nd) (renderTree nd) (markupElement nd) (headTextNode nd)
    (tailTextNode nd) (atomNode nd) (cardNode nd).

Definition set_postNode (v : option PostNode) (nd : RenderNode) : RenderNode :=
  mkRenderNode (parent nd) (isDirty nd) (isRemoved nd) v (_childNodes nd)
    (_element nd) (renderTree nd) (markupElement nd) (headTextNode nd)
    (tailTextNode nd) (atomNode nd) (cardNode nd).

Definition set__childNodes (v : option LinkedList) (nd : RenderNode) : RenderNode :=
  mkRenderNode (parent nd) (isDirty nd) (isRemoved nd) (postNode nd) v
    (_element nd) (renderTree nd) (markupElement nd) (headTextNode nd)
    (tailTextNode nd) (atomNode nd) (cardNode nd).

Definition set__element (v : option Element) (nd : RenderNode) : RenderNode :=
  mkRenderNode (parent nd) (isDirty nd) (isRemoved nd) (postNode nd)
    (_childNodes nd) v (renderTree nd) (markupElement nd) (headTextNode nd)
    (tailTextNode nd) (atomNode nd) (cardNode nd).

Definition set_renderTree (v : option tree_ref) (nd : RenderNode) : RenderNode :=
  mkRenderNode (parent nd) (isDirty nd) (isRemoved nd) (postNode nd)
    (_childNodes nd) (_element nd) v (markupElement nd) (headTextNode nd)
    (tailTextNode nd) (atomNode nd) (cardNode nd).

Definition set_cardNode (v : option CardNode) (nd : RenderNode) : RenderNode :=
  mkRenderNode (parent nd) (isDirty nd) (isRemoved nd) (postNode nd)
    (_childNodes nd) (_element nd) (renderTree nd) (markupElement nd)
    (headTextNode nd) (tailTextNode nd) (atomNode nd) v.

Definition set_elements (v : gmap Element node_ref) (t : RenderTree) : RenderTree :=
  mkRenderTree (rootElement t) v.

Definition with_nodes (f : gmap node_ref RenderNode → gmap node_ref RenderNode)
    (h : Heap) : Heap :=
  mkHeap (f (nodes h)) (trees h).

Definition with_trees (f : gmap tree_ref RenderTree → gmap tree_ref RenderTree)
    (h : Heap) : Heap :=
  mkHeap (nodes h) (f (trees h)).

(** ** Computations *)

Inductive JsError :=
  | AssertionError (msg : string)
  | TypeError.

(** How a call ends: it returns, it throws, the recursion budget of the
    model is exhausted, or it was made on a reference that the store does
    not hold (which a JavaScript program cannot do). *)
Inductive outcome (A : Type) :=
  | Ret (a : A)
  | Throw (e : JsError)
  | OutOfFuel
  | Dangling.
Arguments Ret {A} a.
Arguments Throw {A} e.
Arguments OutOfFuel {A}.
Arguments Dangling {A}.

Definition M (A : Type) : Type := Heap → outcome A * Heap.

Definition out_of_fuel {A} : M A := λ h, (OutOfFuel, h).
Definition throw {A} (e : JsError) : M A := λ h, (Throw e, h).

#[export] Instance M_ret : MRet M := λ A a h, (Ret a, h).

#[export] Instance M_bind : MBind M := λ A B k m h,
  match m h with
  | (Ret a, h') => k a h'
  | (Throw e, h') => (Throw e, h')
  | (OutOfFuel, h') => (OutOfFuel, h')
  | (Dangling, h') => (Dangling, h')
  end.

(** Reading the object behind [this]. *)
Definition get_node (this : node_ref) : M RenderNode :=
  λ h, match nodes h !! this with
       | Some nd => (Ret nd, h)
       | None => (Dangling, h)
       end.

(** [this.f = v] *)
Definition update_node (this : node_ref) (f : RenderNode → RenderNode) : M unit :=
  λ h, match nodes h !! this with
       | Some nd => (Ret tt, with_nodes (insert this (f nd)) h)
       | None => (Dangling, h)
       end.

(** Reading and updating a render tree. *)
Definition get_tree (this : tree_ref) : M RenderTree :=
  λ h, match trees h !! this with
       | Some tr => (Ret tr, h)
       | None => (Dangling, h)
       end.

Definition update_tree (this : tree_ref) (f : RenderTree → RenderTree) : M unit :=
  λ h, match trees h !! this with
       | Some tr => (Ret tt, with_trees (insert this (f tr)) h)
       | None => (Dangling, h)
       end.

(** Reading a property of, or calling a method on, a value that may be
    [null]: a TypeError when it is. *)
Definition deref {A} (o : option A) : M A :=
  match o with
  | Some a => mret a
  | None => throw TypeError
  end.

(** Modelled from the spec: the methods of [RenderTree], which is not
    part of the sources: [removeElementRenderNode] and
    [setElementRenderNode], the only mutators of the index, the lookup
    [getElementRenderNode], and the root DOM element. *)
Module RenderTree.

Definition removeElementRenderNode (this : tree_ref) (e : Element) : M unit :=
  update_tree this (λ tr, set_elements (delete e (elements tr)) tr).

Definition setElementRenderNode (this : tree_ref) (e : Element)
    (n : node_ref) : M unit :=
  update_tree this (λ tr, set_elements (<[e := n]> (elements tr)) tr).

Definition getElementRenderNode (this : tree_ref) (e : Element)
    : M (option node_ref) :=
  tr ← get_tree this; mret (elements tr !! e).

Definition get_rootElement (this : tree_ref) : M Element :=
  tr ← get_tree this; mret (rootElement tr).

End RenderTree.

(** Modelled from the spec: [assert] (utils/assert) is not part of the
    sources; a false condition is an immediate assertion failure. *)
Definition assert (msg : string) (cond : bool) : M unit :=
  if cond then mret tt else throw (AssertionError msg).

(** ** The class *)

Module RenderNode.

(** [constructor(postNode, renderTree)] *)
Definition init (postNode : option PostNode) (renderTree : option tree_ref)
    : RenderNode :=
  {| parent := None;
     isDirty := true;
     isRemoved := false;
     postNode := postNode;
     _childNodes := None;
     _element := None;
     renderTree := renderTree;
     markupElement := None;
     headTextNode := None;
     tailTextNode := None;
     atomNode := None;
     cardNode := None |}.

Definition new (postNode : option PostNode) (renderTree : option tree_ref)
    : M node_ref :=
  λ h, let this := fresh (dom (nodes h)) in
       (Ret this, with_nodes (insert this (init postNode renderTree)) h).

(** [get element()] *)
Definition element (this : node_ref) : M (option Element) :=
  nd ← get_node this; mret (_element nd).

(** Reading [this.renderTree]. *)
Definition get_renderTree (this : node_ref) : M (option tree_ref) :=
  nd ← get_node this; mret (renderTree nd).

(** [set element(element)] *)
Definition set_element (this : node_ref) (element : option Element) : M unit :=
  nd ← get_node this;
  let currentElement := _element nd in
  update_node this (set__element element);;
  match currentElement with
  | Some c =>
      rt ← get_renderTree this;
      t ← deref rt;
      RenderTree.removeElementRenderNode t c
  | None => mret tt
  end;;
  match element with
  | Some e =>
      rt ← get_renderTree this;
      t ← deref rt;
      RenderTree.setElementRenderNode t e this
  | None => mret tt
  end.

(** [get isRendered()] *)
Definition isRendered (this : node_ref) : M bool :=
  e ← element this; mret (bool_decide (is_Some e)).

(** [markDirty()]; the recursion follows the parent chain, which the
    code does not bound, hence the fuel. *)
Fixpoint markDirty (fuel : nat) (this : node_ref) : M unit :=
  match fuel with
  | O => out_of_fuel
  | S fuel' =>
      update_node this (set_isDirty true);;
      nd ← get_node this;
      match parent nd with
      | Some p => markDirty fuel' p
      | None => mret tt
      end
  end.

(** [markClean()] *)
Definition markClean (this : node_ref) : M unit :=
  update_node this (set_isDirty false).

(** [scheduleForRemoval()] *)
Definition scheduleForRemoval (fuel : nat) (this : node_ref) : M unit :=
  update_node this (set_isRemoved true);;
  nd ← get_node this;
  match parent nd with
  | Some p => markDirty fuel p
  | None => mret tt
  end.

(** [destroy()] *)
Definition destroy (this : node_ref) : M unit :=
  set_element this None;;
  update_node this (set_parent None);;
  update_node this (set_postNode None);;
  update_node this (set_renderTree None).

(** Calling one of the hooks of a child list on an item. *)
Definition call_hook (hk : ItemHook) (item : node_ref) : M unit :=
  match hk with
  | HookSetParent owner => update_node item (set_parent (Some owner))
  | HookDestroy => destroy item
  end.

(** [get childNodes()]; the list is created on first use. *)
Definition childNodes (this : node_ref) : M LinkedList :=
  nd ← get_node this;
  match _childNodes nd with
  | Some l => mret l
  | None =>
      let l := {| items := []; adoptItem := Some (HookSetParent this);
                  freeItem := Some HookDestroy |} in
      update_node this (set__childNodes (Some l));;
      mret l
  end.

Section DOM.

(** The browser's [Node.contains]: [dom_contains a b] when [b] is [a]
    or a descendant of [a]. *)
Variable dom_contains : Element → Element → bool.

(** Modelled from the spec: [containsNode] (utils/dom-utils) is not
    part of the sources; it reports whether the second node is a
    descendant of, or equal to, the first. *)
Definition containsNode (parentNode childNode : Element) : bool :=
  dom_contains parentNode childNode.

(** [isAttached()]; the element is read a second time for the call of
    [containsNode], to which the assertion guarantees a node. *)
Definition isAttached (this : node_ref) : M bool :=
  e ← element this;
  assert "Cannot check if a renderNode is attached without an element."%string
    (bool_decide (is_Some e));;
  rt ← get_renderTree this;
  t ← deref rt;
  root ← RenderTree.get_rootElement t;
  e' ← element this;
  el ← deref e';
  mret (containsNode root el).

(** [reparsesMutationOfChildNode(node)] *)
Definition reparsesMutationOfChildNode (this : node_ref) (node : Element)
    : M bool :=
  nd ← get_node this;
  pn ← deref (postNode nd);
  if isCardSection pn then
    cn ← deref (cardNode nd);
    ce ← deref (card_element cn);
    mret (negb (dom_contains ce node))
  else mret true.

End DOM.

End RenderNode.

(** ** Derived notions used by the statements *)

(** The nodes whose [isDirty] flag is set. *)
Definition dirtySet (h : Heap) : gset node_ref :=
  dom (filter (λ kv, isDirty kv.2 = true) (nodes h)).

(** The nodes whose [element] is [E]. *)
Definition holders (h : Heap) (E : Element) : gset node_ref :=
  dom (filter (λ kv, _element kv.2 = Some E) (nodes h)).

(** [path_to_root h n l]: following [parent] from [n] visits exactly the
    nodes of [l], starting with [n] itself and ending at a node without
    parent. Such a list exists when the chain is acyclic and reaches a
    root. *)
Inductive path_to_root (h : Heap) : node_ref → list node_ref → Prop :=
  | path_root n nd :
      nodes h !! n = Some nd → parent nd = None →
      path_to_root h n [n]
  | path_step n nd p l :
      nodes h !! n = Some nd → parent nd = Some p →
      path_to_root h p l →
      path_to_root h n (n :: l).

(** Setting [isDirty] on every node of a list. *)
Definition mark_dirty_all (l : list node_ref)
    (m : gmap node_ref RenderNode) : gmap node_ref RenderNode :=
  foldr (alter (set_isDirty true)) m l.

(** A sequence of [markDirty()] calls. *)
Fixpoint markDirty_each (fuel : nat) (ns : list node_ref) : M unit :=
  match ns with
  | [] => mret tt
  | n :: ns' => RenderNode.markDirty fuel n;; markDirty_each fuel ns'
  end.

(** The index of a tree after [n] gave up [old] and took [new]. *)
Definition reindex (n : node_ref) (old new : option Element)
    (idx : gmap Element node_ref) : gmap Element node_ref :=
  let idx1 := match old with Some c => delete c idx | None => idx end in
  match new with Some e => <[e := n]> idx1 | None => idx1 end.

(** What [getElementRenderNode] of tree [t] answers for [E] in [h]. *)
Definition lookup_index (h : Heap) (t : tree_ref) (E : Element)
    : option node_ref :=
  match trees h !! t with
  | Some tr => elements tr !! E
  | None => None
  end.

(** Every render node of the store belongs to the tree [t]. *)
Definition shares_tree (h : Heap) (t : tree_ref) : Prop :=
  map_Forall (λ _ nd, renderTree nd = Some t) (nodes h).

(** No stale entry: an element that the index maps to a node is the
    element of that node. *)
Definition no_stale (h : Heap) (t : tree_ref) : Prop :=
  ∀ E n, lookup_index h t E = Some n → n ∈ holders h E.

(** Element-index consistency: for every DOM element at most one node
    holds it, and the lookup answers exactly that node, or nothing when
    no node holds it. *)
Definition element_index_consistent (h : Heap) (t : tree_ref) : Prop :=
  ∀ E, (∀ n1 n2, n1 ∈ holders h E → n2 ∈ holders h E → n1 = n2) ∧
       (∀ n, lookup_index h t E = Some n ↔ n ∈ holders h E).

(** A sequence of assignments [node.element = value]. *)
Fixpoint assign_each (asg : list (node_ref * option Element)) : M unit :=
  match asg with
  | [] => mret tt
  | (n, e) :: rest => RenderNode.set_element n e;; assign_each rest
  end.

(** No assignment of the sequence gives a node an element that another
    node holds at that moment. *)
Fixpoint exclusive (h : Heap) (asg : list (node_ref * option Element))
    : bool :=
  match asg with
  | [] => true
  | (n, e) :: rest =>
      match e with
      | Some E => bool_decide (holders h E ⊆ {[n]})
      | None => true
      end && exclusive (RenderNode.set_element n e h).2 rest
  end.

(** A node in a state that the methods of the class produce when they
    return: its render tree, when it has one, is in the store, and a node
    without render tree holds no element. *)
Definition node_ok (h : Heap) (nd : RenderNode) : Prop :=
  match renderTree nd with
  | Some t => is_Some (trees h !! t)
  | None => _element nd = None
  end.

(** Every node of the store is well formed. *)
Definition heap_ok (h : Heap) : Prop :=
  map_Forall (λ _ nd, node_ok h nd) (nodes h).

(** The fields of a node after [destroy()]. *)
Definition destroyed (nd : RenderNode) : RenderNode :=
  set_renderTree None
    (set_postNode None (set_parent None (set__element None nd))).

(** The store after [n.element = new], for a node [n] with fields [nd]
    that belongs to the tree [t] with fields [tr]. *)
Definition after_set_element (h : Heap) (n : node_ref) (nd : RenderNode)
    (new : option Element) (t : tree_ref) (tr : RenderTree) : Heap :=
  mkHeap (<[n := set__element new nd]> (nodes h))
         (<[t := set_elements (reindex n (_element nd) new (elements tr)) tr]>
            (trees h)).

(** ** Concrete stores used to exercise the statements *)

Module Scenario.

Definition clean_node (p : option node_ref) : RenderNode :=
  set_isDirty false (set_parent p (RenderNode.init None (Some 0))).

(** root (0) → child (1) → grandchild (2), all clean, in a tree whose
    root DOM element is 100 and whose index is empty. *)
Definition chain3 : Heap :=
  mkHeap {[ 0 := clean_node None;
            1 := clean_node (Some 0);
            2 := clean_node (Some 1) ]}
         {[ 0 := mkRenderTree 100 ∅ ]}.

Definition empty_tree : Heap := mkHeap ∅ {[ 0 := mkRenderTree 100 ∅ ]}.

(** Two freshly constructed render nodes, 0 and 1, of the tree 0. *)
Definition two_nodes : Heap :=
  ((RenderNode.new None (Some 0);; RenderNode.new None (Some 0))
     empty_tree).2.

(** A parent (0) holding the element 7 with one child (1) holding the
    element 8, both registered in the index of tree 0. *)
Definition parent_node : RenderNode :=
  set__childNodes
    (Some {| items := [1]; adoptItem := Some (HookSetParent 0);
             freeItem := Some HookDestroy |})
    (set__element (Some 7)
       (RenderNode.init (Some (mkPostNode 10 false)) (Some 0))).

Definition child_node : RenderNode :=
  set_parent (Some 0)
    (set__element (Some 8)
       (RenderNode.init (Some (mkPostNode 11 false)) (Some 0))).

Definition family : Heap :=
  mkHeap {[ 0 := parent_node; 1 := child_node ]}
         {[ 0 := mkRenderTree 100 {[ 7 := 0; 8 := 1 ]} ]}.

(** A DOM in which 100 contains every node, 50 contains 51, and every
    node contains itself. *)
Definition contains (a b : Element) : bool :=
  bool_decide (a = 100) || bool_decide (a = b)
    || (bool_decide (a = 50) && bool_decide (b = 51)).

Definition card : PostNode := mkPostNode 20 true.
Definition text : PostNode := mkPostNode 21 false.

(** Node 0 is a rendered card section whose card owns the DOM node 50;
    node 1 is a rendered text section; node 2 is a card section as
    constructed, not yet rendered. *)
Definition rendered_card : RenderNode :=
  set_cardNode (Some (mkCardNode (Some 50)))
    (set__element (Some 7) (RenderNode.init (Some card) (Some 0))).

Definition rendered_text : RenderNode :=
  set__element (Some 8) (RenderNode.init (Some text) (Some 0)).

Definition page : Heap :=
  mkHeap {[ 0 := rendered_card; 1 := rendered_text;
            2 := RenderNode.init (Some card) (Some 0) ]}
         {[ 0 := mkRenderTree 100 {[ 7 := 0; 8 := 1 ]} ]}.

End Scenario.

(** ** Sequences of method calls *)

(** Every entry of every element index is the element of the node it
    names, and that node belongs to the tree of the index. *)
Definition index_sound (h : Heap) : Prop :=
  ∀ t tr E n,
    trees h !! t = Some tr → elements tr !! E = Some n →
    ∃ nd, nodes h !! n = Some nd ∧ _element nd = Some E ∧
          renderTree nd = Some t.

(** The calls of the class that write to the store. *)
Inductive Call :=
  | CallNew (postNode : option PostNode) (renderTree : option tree_ref)
  | CallSetElement (n : node_ref) (element : option Element)
  | CallMarkDirty (n : node_ref)
  | CallMarkClean (n : node_ref)
  | CallScheduleForRemoval (n : node_ref)
  | CallDestroy (n : node_ref)
  | CallChildNodes (n : node_ref).

Definition run_call (fuel : nat) (c : Call) : M unit :=
  match c with
  | CallNew postNode renderTree => RenderNode.new postNode renderTree;; mret tt
  | CallSetElement n element => RenderNode.set_element n element
  | CallMarkDirty n => RenderNode.markDirty fuel n
  | CallMarkClean n => RenderNode.markClean n
  | CallScheduleForRemoval n => RenderNode.scheduleForRemoval fuel n
  | CallDestroy n => RenderNode.destroy n
  | CallChildNodes n => RenderNode.childNodes n;; mret tt
  end.

(** A program: the calls run in order, up to the first one that does not
    return. *)
Fixpoint run_calls (fuel : nat) (cs : list Call) : M unit :=
  match cs with
  | [] => mret tt
  | c :: cs' => run_call fuel c;; run_calls fuel cs'
  end.

(** A constructor call names a render tree of the store, or none. *)
Definition call_ok (h : Heap) (c : Call) : Prop :=
  match c with
  | CallNew _ (Some t) => is_Some (trees h !! t)
  | _ => True
  end.

(** [post P m Q]: from a store in [P], the store that [m] leaves is in
    [Q], however [m] ends. *)
Definition post {A} (P : Heap → Prop) (m : M A) (Q : Heap → Prop) : Prop :=
  ∀ h, P h → Q (m h).2.

(** ** The editor: strings, DOM traversal and commands

    The first module of [src/dist/content-kit-editor.js]. A computation
    that only reads the DOM ends in an [outcome]. *)

#[export] Instance outcome_ret : MRet outcome := λ A a, Ret a.

#[export] Instance outcome_bind : MBind outcome := λ A B k m,
  match m with
  | Ret a => k a
  | Throw e => Throw e
  | OutOfFuel => OutOfFuel
  | Dangling => Dangling
  end.

Module ContentKit.

(** Strings, as sequences of 8-bit code units. *)
Abbreviation jsstring := (list ascii) (only parsing).

Definition js (s : string) : jsstring := String.list_ascii_of_string s.

(** A value that is a string, [undefined] or [null]. *)
Inductive StringValue :=
  | Str (s : jsstring)
  | Undefined
  | Null.

#[global] Instance StringValue_eq_dec : EqDecision StringValue.
Proof. solve_decision. Defined.

(** [String(v)], as string concatenation and [RegExp.test] coerce. *)
Definition toString (v : StringValue) : jsstring :=
  match v with
  | Str s => s
  | Undefined => js "undefined"
  | Null => js "null"
  end.

(** Truthiness: the empty string, [undefined] and [null] are falsy. *)
Definition truthy (v : StringValue) : bool :=
  match v with
  | Str (_ :: _) => true
  | _ => false
  end.

(** [a || b] *)
Definition js_or (a b : StringValue) : StringValue :=
  if truthy a then a else b.

(** [var Regex]: the case folding of the [i] flag. The patterns of this
    file hold ASCII characters only, which a folded character above 127
    never equals, so folding a to z onto A to Z decides every match. *)
Definition canonicalize (c : ascii) : ascii :=
  let n := nat_of_ascii c in
  if (97 <=? n) && (n <=? 122) then ascii_of_nat (n - 32) else c.

Fixpoint ci_prefix (pat s : jsstring) : bool :=
  match pat, s with
  | [], _ => true
  | p :: pat', c :: s' =>
      Ascii.eqb (canonicalize p) (canonicalize c) && ci_prefix pat' s'
  | _ :: _, [] => false
  end.

(** [/[\r\n]/g] matches one code unit. *)
Definition NEWLINE_char (c : ascii) : bool :=
  Ascii.eqb c (ascii_of_nat 13) || Ascii.eqb c (ascii_of_nat 10).

(** [/^https?:\/\//i.test(s)] *)
Definition HTTP_PROTOCOL_test (s : jsstring) : bool :=
  ci_prefix (js "http://") s || ci_prefix (js "https://") s.

(** [/^(H1|H2|H3|H4|H5|H6)$/i.test(s)] *)
Definition HEADING_TAG_test (s : jsstring) : bool :=
  existsb (λ p, ci_prefix (js p) s && (length s =? length (js p)))
    ["H1"; "H2"; "H3"; "H4"; "H5"; "H6"]%string.

(** [var SelectionDirection] *)
Definition LEFT_TO_RIGHT : Z := 1.
Definition RIGHT_TO_LEFT : Z := 2.
Definition SAME_NODE : Z := 3.

(** [Node.DOCUMENT_POSITION_PRECEDING] and [..._FOLLOWING] *)
Definition DOCUMENT_POSITION_PRECEDING : Z := 2.
Definition DOCUMENT_POSITION_FOLLOWING : Z := 4.

(** [var Tags] and [var RootTags] *)
Definition Tags_PARAGRAPH : jsstring := js "P".
Definition Tags_HEADING : jsstring := js "H2".
Definition Tags_SUBHEADING : jsstring := js "H3".
Definition Tags_QUOTE : jsstring := js "BLOCKQUOTE".
Definition Tags_LIST : jsstring := js "UL".
Definition Tags_ORDERED_LIST : jsstring := js "OL".
Definition Tags_LIST_ITEM : jsstring := js "LI".
Definition Tags_LINK : jsstring := js "A".
Definition Tags_BOLD : jsstring := js "B".
Definition Tags_ITALIC : jsstring := js "I".

Definition RootTags : list jsstring :=
  [Tags_PARAGRAPH; Tags_HEADING; Tags_SUBHEADING; Tags_QUOTE; Tags_LIST;
   Tags_ORDERED_LIST].

(** [RootTags.indexOf(tag) === -1]: [indexOf] compares with [===], so
    only a string can be found. *)
Definition not_in_RootTags (tag : StringValue) : bool :=
  match tag with
  | Str s => negb (bool_decide (s ∈ RootTags))
  | _ => true
  end.

(** The properties of a DOM node that the traversals read. *)
Record DomNode := mkDomNode {
  tagName : StringValue;
  nodeType : nat;
  parentNode : option Element;
  contentEditable : StringValue;
}.

(** The properties of a [Selection] that the code reads. *)
Record Selection := mkSelection {
  anchorNode : option Element;
  focusNode : option Element;
  isCollapsed : bool;
}.

(** Reading a property of the node behind a reference. *)
Definition node_of (dom : gmap Element DomNode) (e : Element)
    : outcome DomNode :=
  match dom !! e with
  | Some nd => Ret nd
  | None => Dangling
  end.

(** Reading a property of a value that may be [null]. *)
Definition nonnull {A} (o : option A) : outcome A :=
  match o with
  | Some a => Ret a
  | None => Throw TypeError
  end.

(** [getEventTargetMatchingTag(tag, target, container)]; the loop walks
    up the DOM, which the code does not bound, hence the fuel. A call
    that falls off the end of the function answers [undefined]. *)
Fixpoint getEventTargetMatchingTag (fuel : nat) (dom : gmap Element DomNode)
    (tag : StringValue) (target : option Element) (container : Element)
    : outcome (option Element) :=
  match fuel with
  | O => OutOfFuel
  | S fuel' =>
      match target with
      | None => Ret None
      | Some tg =>
          if decide (tg = container) then Ret None
          else
            nd ← node_of dom tg;
            if decide (tagName nd = tag) then Ret (Some tg)
            else getEventTargetMatchingTag fuel' dom tag (parentNode nd)
                   container
      end
  end.

Section Selections.

(** The browser's [Node.compareDocumentPosition], a bit mask. *)
Variable compareDocumentPosition : Element → Element → Z.

(** [getDirectionOfSelection(selection)] *)
Definition getDirectionOfSelection (selection : Selection) : outcome Z :=
  anchor ← nonnull (anchorNode selection);
  focus ← nonnull (focusNode selection);
  let position := compareDocumentPosition anchor focus in
  if negb (Z.land position DOCUMENT_POSITION_FOLLOWING =? 0)%Z
  then Ret LEFT_TO_RIGHT
  else if negb (Z.land position DOCUMENT_POSITION_PRECEDING =? 0)%Z
  then Ret RIGHT_TO_LEFT
  else Ret SAME_NODE.

(** [getCurrentSelectionNode(selection)]; [windowSelection] is what
    [window.getSelection()] answers. *)
Definition getCurrentSelectionNode (dom : gmap Element DomNode)
    (windowSelection : Selection) (selection : option Selection)
    : outcome (option Element) :=
  let selection := default windowSelection selection in
  direction ← getDirectionOfSelection selection;
  let node :=
    if (direction =? LEFT_TO_RIGHT)%Z then anchorNode selection
    else focusNode selection in
  match node with
  | None => Ret None
  | Some n =>
      nd ← node_of dom n;
      if nodeType nd =? 3 then Ret (parentNode nd) else Ret (Some n)
  end.

(** The loop of [getCurrentSelectionRootNode]. *)
Fixpoint getCurrentSelectionRootNode_loop (fuel : nat)
    (dom : gmap Element DomNode) (node : Element) (tag : StringValue)
    : outcome Element :=
  match fuel with
  | O => OutOfFuel
  | S fuel' =>
      if truthy tag && not_in_RootTags tag then
        nd ← node_of dom node;
        if decide (contentEditable nd = Str (js "true")) then Ret node
        else
          p ← nonnull (parentNode nd);
          pd ← node_of dom p;
          getCurrentSelectionRootNode_loop fuel' dom p (tagName pd)
      else Ret node
  end.

(** [getCurrentSelectionRootNode()] *)
Definition getCurrentSelectionRootNode (fuel : nat)
    (dom : gmap Element DomNode) (windowSelection : Selection)
    : outcome Element :=
  node ← getCurrentSelectionNode dom windowSelection None;
  n ← nonnull node;
  nd ← node_of dom n;
  getCurrentSelectionRootNode_loop fuel dom n (tagName nd).

(** [getCurrentSelectionTag()] *)
Definition getCurrentSelectionTag (dom : gmap Element DomNode)
    (windowSelection : Selection) : outcome StringValue :=
  node ← getCurrentSelectionNode dom windowSelection None;
  match node with
  | Some n => nd ← node_of dom n; Ret (tagName nd)
  | None => Ret Null
  end.

(** [getCurrentSelectionRootTag()] *)
Definition getCurrentSelectionRootTag (fuel : nat)
    (dom : gmap Element DomNode) (windowSelection : Selection)
    : outcome StringValue :=
  node ← getCurrentSelectionRootNode fuel dom windowSelection;
  nd ← node_of dom node;
  Ret (tagName nd).

(** The loop of [tagsInSelection]. *)
Fixpoint tagsInSelection_loop (fuel : nat) (dom : gmap Element DomNode)
    (node : option Element) (tags : list StringValue)
    : outcome (list StringValue) :=
  match fuel with
  | O => OutOfFuel
  | S fuel' =>
      match node with
      | None => Ret tags
      | Some n =>
          nd ← node_of dom n;
          if decide (contentEditable nd = Str (js "true")) then Ret tags
          else
            let tags := if truthy (tagName nd) then tags ++ [tagName nd]
                        else tags in
            tagsInSelection_loop fuel' dom (parentNode nd) tags
      end
  end.

(** [tagsInSelection(selection)] *)
Definition tagsInSelection (fuel : nat) (dom : gmap Element DomNode)
    (windowSelection : Selection) (selection : Selection)
    : outcome (list StringValue) :=
  node ← getCurrentSelectionNode dom windowSelection (Some selection);
  if negb (isCollapsed selection)
  then tagsInSelection_loop fuel dom node []
  else Ret [].

End Selections.

(** The loop of [selectionIsInElement]. *)
Fixpoint selectionIsInElement_loop (fuel : nat) (dom : gmap Element DomNode)
    (parentNode0 : option Element) (element : Element) : outcome bool :=
  match fuel with
  | O => OutOfFuel
  | S fuel' =>
      match parentNode0 with
      | None => Ret false
      | Some p =>
          if decide (p = element) then Ret true
          else
            pd ← node_of dom p;
            selectionIsInElement_loop fuel' dom (parentNode pd) element
      end
  end.

(** [selectionIsInElement(selection, element)] *)
Definition selectionIsInElement (fuel : nat) (dom : gmap Element DomNode)
    (selection : Selection) (element : Element) : outcome bool :=
  node ← nonnull (focusNode selection);
  nd ← node_of dom node;
  selectionIsInElement_loop fuel dom (parentNode nd) element.

(** [String.prototype.split] with [Regex.NEWLINE]: the pieces between
    the code units that the expression matches; never an empty list. *)
Fixpoint split_NEWLINE (s : jsstring) : list jsstring :=
  match s with
  | [] => [[]]
  | c :: s' =>
      if NEWLINE_char c then [] :: split_NEWLINE s'
      else match split_NEWLINE s' with
           | block :: blocks => (c :: block) :: blocks
           | [] => [[c]]
           end
  end.

(** [plainTextToBlocks(plainText, blockTag)] *)
Definition plainTextToBlocks (plainText blockTag : jsstring) : jsstring :=
  let blocks := split_NEWLINE plainText in
  let len := length blocks in
  if len <? 2 then plainText
  else
    let openTag := js "<" ++ blockTag ++ js ">" in
    let closeTag := js "</" ++ blockTag ++ js ">" in
    fold_left
      (λ content block,
         if decide (block ≠ []) then content ++ openTag ++ block ++ closeTag
         else content)
      blocks [].

(** The options that the command constructors read. *)
Record CommandOptions := mkCommandOptions {
  opt_name : StringValue;
  opt_button : StringValue;
  opt_tag : StringValue;
  opt_action : StringValue;
  opt_removeAction : StringValue;
  opt_prompt : option jsstring;
}.

(** A command; its prompt is kept as the placeholder it was made with. *)
Record Command := mkCommand {
  name : StringValue;
  button : StringValue;
  prompt : option jsstring;
  tag : StringValue;
  action : StringValue;
  removeAction : StringValue;
}.

(** [Command(options)] *)
Definition Command_new (options : CommandOptions) : Command :=
  {| name := opt_name options;
     button := js_or (opt_button options) (opt_name options);
     prompt := opt_prompt options;
     tag := Undefined;
     action := Undefined;
     removeAction := Undefined |}.

(** [TextFormatCommand(options)] *)
Definition TextFormatCommand_new (options : CommandOptions) : Command :=
  let this := Command_new options in
  let action0 := js_or (opt_action options) (name this) in
  {| name := name this;
     button := button this;
     prompt := prompt this;
     tag := opt_tag options;
     action := action0;
     removeAction := js_or (opt_removeAction options) action0 |}.

Definition quote : ascii := ascii_of_nat 34.

Definition icon (class : string) (text : string) : jsstring :=
  js "<i class=" ++ [quote] ++ js class ++ [quote] ++ js "></i>" ++ js text.

(** [BoldCommand()], [ItalicCommand()] and [LinkCommand()] *)
Definition BoldCommand_new : Command :=
  TextFormatCommand_new
    {| opt_name := Str (js "bold"); opt_tag := Str Tags_BOLD;
       opt_button := Str (icon "ck-icon-bold" "");
       opt_action := Undefined; opt_removeAction := Undefined;
       opt_prompt := None |}.

Definition ItalicCommand_new : Command :=
  TextFormatCommand_new
    {| opt_name := Str (js "italic"); opt_tag := Str Tags_ITALIC;
       opt_button := Str (icon "ck-icon-italic" "");
       opt_action := Undefined; opt_removeAction := Undefined;
       opt_prompt := None |}.

Definition LinkCommand_new : Command :=
  TextFormatCommand_new
    {| opt_name := Str (js "link"); opt_tag := Str Tags_LINK;
       opt_action := Str (js "createLink");
       opt_removeAction := Str (js "unlink");
       opt_button := Str (icon "ck-icon-link" "");
       opt_prompt := Some (js "Enter a url, press return...") |}.

(** A call [document.execCommand(action, false, value)], the effect of
    executing a command. *)
Record ExecCommand := mkExecCommand {
  exec_action : StringValue;
  exec_value : StringValue;
}.

(** [TextFormatCommand.prototype.exec] and [unexec] *)
Definition TextFormatCommand_exec (this : Command) (value : StringValue)
    : list ExecCommand :=
  [mkExecCommand (action this) (js_or value Null)].

Definition TextFormatCommand_unexec (this : Command) (value : StringValue)
    : list ExecCommand :=
  [mkExecCommand (removeAction this) (js_or value Null)].

Section Commands.

Variable compareDocumentPosition : Element → Element → Z.

(** [BoldCommand.prototype.exec] *)
Definition BoldCommand_exec (fuel : nat) (dom : gmap Element DomNode)
    (windowSelection : Selection) (this : Command)
    : outcome (list ExecCommand) :=
  rootTag ← getCurrentSelectionRootTag compareDocumentPosition fuel dom
              windowSelection;
  if negb (HEADING_TAG_test (toString rootTag))
  then Ret (TextFormatCommand_exec this Undefined)
  else Ret [].

(** [LinkCommand.prototype.exec] *)
Definition LinkCommand_exec (dom : gmap Element DomNode)
    (windowSelection : Selection) (this : Command) (url : StringValue)
    : outcome (list ExecCommand) :=
  selectionTag ← getCurrentSelectionTag compareDocumentPosition dom
                   windowSelection;
  if decide (tag this = selectionTag)
  then Ret (TextFormatCommand_unexec this Undefined)
  else
    let url :=
      if negb (HTTP_PROTOCOL_test (toString url))
      then Str (js "http://" ++ toString url)
      else url in
    Ret (TextFormatCommand_exec this url).

End Commands.

(** [var ToolbarButton]: a button, and the part of the page that its
    methods write: the [className] of elements and the buttons. *)
Definition buttonClassName : jsstring := js "ck-toolbar-btn".

Record ToolbarButton := mkToolbarButton {
  element : Element;
  command : Command;
  isActive : bool;
}.

Record Ui := mkUi {
  classNames : gmap Element jsstring;
  toolbarButtons : gmap nat ToolbarButton;
}.

(** [ToolbarButton.prototype.setActive] *)
Definition setActive (this : nat) (ui : Ui) : outcome Ui :=
  match toolbarButtons ui !! this with
  | None => Dangling
  | Some button =>
      if negb (isActive button) then
        Ret (mkUi
               (<[element button := buttonClassName ++ js " active"]>
                  (classNames ui))
               (<[this := mkToolbarButton (element button) (command button)
                            true]> (toolbarButtons ui)))
      else Ret ui
  end.

(** [ToolbarButton.prototype.setInactive] *)
Definition setInactive (this : nat) (ui : Ui) : outcome Ui :=
  match toolbarButtons ui !! this with
  | None => Dangling
  | Some button =>
      if isActive button then
        Ret (mkUi
               (<[element button := buttonClassName]> (classNames ui))
               (<[this := mkToolbarButton (element button) (command button)
                            false]> (toolbarButtons ui)))
      else Ret ui
  end.

(** The loop of [updateButtonsForSelection]. *)
Fixpoint updateButtonsForSelection_loop (selectedTags : list StringValue)
    (buttons : list nat) (ui : Ui) : outcome Ui :=
  match buttons with
  | [] => Ret ui
  | b :: buttons' =>
      match toolbarButtons ui !! b with
      | None => Dangling
      | Some button =>
          ui' ← (if bool_decide (tag (command button) ∈ selectedTags)
                 then setActive b ui else setInactive b ui);
          updateButtonsForSelection_loop selectedTags buttons' ui'
      end
  end.

(** [updateButtonsForSelection(buttons, selection)] *)
Definition updateButtonsForSelection
    (compareDocumentPosition : Element → Element → Z) (fuel : nat)
    (dom : gmap Element DomNode) (windowSelection : Selection)
    (buttons : list nat) (selection : Selection) (ui : Ui) : outcome Ui :=
  selectedTags ← tagsInSelection compareDocumentPosition fuel dom
                   windowSelection selection;
  updateButtonsForSelection_loop selectedTags buttons ui.

(** The class name that a button's state calls for. *)
Definition class_of (active : bool) : jsstring :=
  if active then buttonClassName ++ js " active" else buttonClassName.

(** Every button's element carries the class name of the button's state,
    and no two buttons share an element: so the constructor leaves a
    button, each with an element of its own. *)
Definition ui_ok (ui : Ui) : Prop :=
  (∀ b button, toolbarButtons ui !! b = Some button →
     classNames ui !! element button = Some (class_of (isActive button))) ∧
  (∀ b1 b2 button1 button2,
     toolbarButtons ui !! b1 = Some button1 →
     toolbarButtons ui !! b2 = Some button2 →
     element button1 = element button2 → b1 = b2).

(** The button that [updateButtonsForSelection] is to leave in the place
    of [button]: active exactly when its command's tag is selected, if it
    is one of [buttons], and as it was otherwise. *)
Definition updated_button (selectedTags : list StringValue)
    (buttons : list nat) (b : nat) (button : ToolbarButton)
    : ToolbarButton :=
  mkToolbarButton (element button) (command button)
    (if decide (b ∈ buttons)
     then bool_decide (tag (command button) ∈ selectedTags)
     else isActive button).

(** [dom_path dom e l]: following [parentNode] from [e] visits exactly
    the nodes of [l], from [e] itself up to a node without parent. *)
Inductive dom_path (dom : gmap Element DomNode)
    : Element → list Element → Prop :=
  | dom_path_root e nd :
      dom !! e = Some nd → parentNode nd = None →
      dom_path dom e [e]
  | dom_path_step e nd p l :
      dom !! e = Some nd → parentNode nd = Some p →
      dom_path dom p l →
      dom_path dom e (e :: l).

(** The nodes of a list before the first one that satisfies [stop]. *)
Fixpoint take_until (stop : Element → bool) (l : list Element)
    : list Element :=
  match l with
  | [] => []
  | x :: l' => if stop x then [] else x :: take_until stop l'
  end.

Definition tag_of (dom : gmap Element DomNode) (e : Element) : StringValue :=
  match dom !! e with
  | Some nd => tagName nd
  | None => Undefined
  end.

(** An editor element: [contentEditable === 'true']. *)
Definition is_editor (dom : gmap Element DomNode) (e : Element) : bool :=
  match dom !! e with
  | Some nd => bool_decide (contentEditable nd = Str (js "true"))
  | None => false
  end.

(** Where the walk of [getCurrentSelectionRootNode] stops: at a node
    without tag name, with a root tag, or at an editor element. *)
Definition is_root (dom : gmap Element DomNode) (e : Element) : bool :=
  negb (truthy (tag_of dom e) && not_in_RootTags (tag_of dom e))
  || is_editor dom e.

End ContentKit.

(** ** A document used to exercise the statements on the editor *)

Module DomScenario.

(** A document (1) with a body (2) holding an editor [div] (3); in it a
    paragraph (4) with a link (5) around bold text (6, text node 7), a
    second-level heading (8) with its text node (9), and a first-level
    heading (10) with its text node (11). *)
Definition el (tagName : string) (parentNode : option Element)
    (contentEditable : string) : ContentKit.DomNode :=
  ContentKit.mkDomNode (ContentKit.Str (ContentKit.js tagName)) 1 parentNode
    (ContentKit.Str (ContentKit.js contentEditable)).

Definition text_node (parentNode : Element) : ContentKit.DomNode :=
  ContentKit.mkDomNode ContentKit.Undefined 3 (Some parentNode)
    ContentKit.Undefined.

Definition page : gmap Element ContentKit.DomNode :=
  {[ 1 := ContentKit.mkDomNode ContentKit.Undefined 9 None
            ContentKit.Undefined;
     2 := el "BODY" (Some 1) "inherit";
     3 := el "DIV" (Some 2) "true";
     4 := el "P" (Some 3) "inherit";
     5 := el "A" (Some 4) "inherit";
     6 := el "B" (Some 5) "inherit";
     7 := text_node 6;
     8 := el "H2" (Some 3) "inherit";
     9 := text_node 8;
     10 := el "H1" (Some 3) "inherit";
     11 := text_node 10 ]}.

(** Document order of the nodes above: the larger number follows. *)
Definition compareDocumentPosition (a b : Element) : Z :=
  if a =? b then 0%Z else if a <? b then 4%Z else 2%Z.

(** A caret in the text node [e]. *)
Definition caret (e : Element) : ContentKit.Selection :=
  ContentKit.mkSelection (Some e) (Some e) true.

(** A selection of text inside the text node [e]. *)
Definition range (e : Element) : ContentKit.Selection :=
  ContentKit.mkSelection (Some e) (Some e) false.

(** A toolbar of three buttons, for bold (0, element 20), italic (1,
    element 21, shown active) and link (2, element 22). *)
Definition toolbar_ui : ContentKit.Ui :=
  ContentKit.mkUi
    {[ 20 := ContentKit.class_of false;
       21 := ContentKit.class_of true;
       22 := ContentKit.class_of false ]}
    {[ 0 := ContentKit.mkToolbarButton 20 ContentKit.BoldCommand_new false;
       1 := ContentKit.mkToolbarButton 21 ContentKit.ItalicCommand_new true;
       2 := ContentKit.mkToolbarButton 22 ContentKit.LinkCommand_new false ]}.

End DomScenario.

(** ** Running computations *)

Lemma run_bind_ret {A B} (m : M A) (k : A → M B) h a h' :
  m h = (Ret a, h') → (m ≫= k) h = k a h'.
Proof. intros Hm. unfold mbind, M_bind. by rewrite Hm. Qed.

Lemma run_bind_throw {A B} (m : M A) (k : A → M B) h e h' :
  m h = (Throw e, h') → (m ≫= k) h = (Throw e, h').
Proof. intros Hm. unfold mbind, M_bind. by rewrite Hm. Qed.

Lemma run_mret {A} (a : A) h : (mret a : M A) h = (Ret a, h).
Proof. done. Qed.

Lemma run_get_node h n nd :
  nodes h !! n = Some nd → get_node n h = (Ret nd, h).
Proof. intros Hn. unfold get_node. by rewrite Hn. Qed.

Lemma run_update_node h n nd f :
  nodes h !! n = Some nd →
  update_node n f h = (Ret tt, with_nodes (insert n (f nd)) h).
Proof. intros Hn. unfold update_node. by rewrite Hn. Qed.

Lemma run_get_tree h t tr :
  trees h !! t = Some tr → get_tree t h = (Ret tr, h).
Proof. intros Ht. unfold get_tree. by rewrite Ht. Qed.

Lemma run_update_tree h t tr f :
  trees h !! t = Some tr →
  update_tree t f h = (Ret tt, with_trees (insert t (f tr)) h).
Proof. intros Ht. unfold update_tree. by rewrite Ht. Qed.

Lemma insert_as_alter (m : gmap node_ref RenderNode) n nd f :
  m !! n = Some nd → <[n := f nd]> m = alter f n m.
Proof.
  intros Hn. apply map_eq; intros k.
  rewrite lookup_insert, lookup_alter.
  case_decide; subst; by rewrite ?Hn.
Qed.

Lemma run_update_node_alter h n nd f :
  nodes h !! n = Some nd →
  update_node n f h = (Ret tt, with_nodes (alter f n) h).
Proof.
  intros Hn. erewrite run_update_node by done.
  unfold with_nodes. by erewrite insert_as_alter.
Qed.

Lemma heap_eta h : mkHeap (nodes h) (trees h) = h.
Proof. by destruct h. Qed.

(** ** Dirty marking *)

Lemma lookup_mark_dirty_all l (m : gmap node_ref RenderNode) k :
  mark_dirty_all l m !! k =
    if decide (k ∈ l) then set_isDirty true <$> m !! k else m !! k.
Proof.
  induction l as [|a l IH]; simpl; [done|].
  rewrite lookup_alter.
  repeat case_decide; subst; try set_solver; rewrite IH;
    repeat case_decide; try set_solver; by destruct (m !! k).
Qed.

Lemma mark_dirty_all_alter l (m : gmap node_ref RenderNode) n :
  mark_dirty_all l (alter (set_isDirty true) n m) = mark_dirty_all (n :: l) m.
Proof.
  apply map_eq; intros k.
  rewrite !lookup_mark_dirty_all, lookup_alter.
  repeat case_decide; subst; try set_solver; by destruct (m !! k).
Qed.

Lemma mark_dirty_all_app l1 l2 (m : gmap node_ref RenderNode) :
  mark_dirty_all l2 (mark_dirty_all l1 m) = mark_dirty_all (l1 ++ l2) m.
Proof.
  apply map_eq; intros k. rewrite !lookup_mark_dirty_all.
  repeat case_decide; try set_solver; by destruct (m !! k).
Qed.

Lemma mark_dirty_all_idem l (m : gmap node_ref RenderNode) :
  mark_dirty_all l (mark_dirty_all l m) = mark_dirty_all l m.
Proof.
  apply map_eq; intros k. rewrite !lookup_mark_dirty_all.
  case_decide; [|done]. by destruct (m !! k).
Qed.

Lemma path_to_root_parents h h' n l :
  (∀ k, parent <$> nodes h' !! k = parent <$> nodes h !! k) →
  path_to_root h n l → path_to_root h' n l.
Proof.
  intros Hpar. induction 1 as [n nd Hn Hp|n nd p l Hn Hp _ IH].
  - specialize (Hpar n). rewrite Hn in Hpar.
    destruct (nodes h' !! n) as [nd'|] eqn:Hn'; simplify_eq/=.
    eapply path_root; [done|congruence].
  - specialize (Hpar n). rewrite Hn in Hpar.
    destruct (nodes h' !! n) as [nd'|] eqn:Hn'; simplify_eq/=.
    eapply (path_step _ _ nd' p); [done|congruence|done].
Qed.

Lemma path_to_root_mark h n l l' :
  path_to_root h n l → path_to_root (with_nodes (mark_dirty_all l') h) n l.
Proof.
  apply path_to_root_parents. intros k. simpl.
  rewrite lookup_mark_dirty_all. case_decide; [|done].
  by destruct (nodes h !! k).
Qed.

Lemma path_to_root_head h n l : path_to_root h n l → ∃ l', l = n :: l'.
Proof. destruct 1; eauto. Qed.

Lemma path_to_root_det h n l1 l2 :
  path_to_root h n l1 → path_to_root h n l2 → l1 = l2.
Proof.
  intros H1. revert l2.
  induction H1 as [n nd Hn Hp|n nd p l Hn Hp _ IH]; intros l2 H2;
    inversion H2; simplify_eq; [done|]. f_equal. eauto.
Qed.

Lemma path_to_root_suffix h n l a :
  path_to_root h n l → a ∈ l →
  ∃ l2, path_to_root h a l2 ∧ length l2 ≤ length l.
Proof.
  induction 1 as [n nd Hn Hp|n nd p l Hn Hp Hl IH]; intros Ha.
  - apply list_elem_of_singleton in Ha as ->.
    exists [n]. split; [by eapply path_root|done].
  - apply elem_of_cons in Ha as [->|Ha].
    + exists (n :: l). split; [by eapply path_step|done].
    + destruct (IH Ha) as (l2 & ? & ?). exists l2. split; [done|simpl; lia].
Qed.

(** A path to the root never visits a node twice. *)
Lemma path_to_root_NoDup h n l : path_to_root h n l → NoDup l.
Proof.
  induction 1 as [n nd Hn Hp|n nd p l Hn Hp Hl IH].
  - apply NoDup_singleton.
  - apply NoDup_cons. split; [|done]. intros Hin.
    destruct (path_to_root_suffix _ _ _ _ Hl Hin) as (l2 & H2 & Hlen).
    assert (l2 = n :: l) as ->
      by (eapply path_to_root_det; [done|by eapply path_step]).
    simpl in Hlen. lia.
Qed.

Lemma path_to_root_allocated h n l a :
  path_to_root h n l → a ∈ l → is_Some (nodes h !! a).
Proof.
  induction 1 as [n nd Hn Hp|n nd p l Hn Hp Hl IH]; intros Ha.
  - apply list_elem_of_singleton in Ha as ->. eauto.
  - apply elem_of_cons in Ha as [->|Ha]; eauto.
Qed.

(** With enough fuel, [markDirty] returns and has set the flag on the
    path to the root and changed nothing else. *)
Lemma run_markDirty fuel h n l :
  path_to_root h n l → length l ≤ fuel →
  RenderNode.markDirty fuel n h = (Ret tt, with_nodes (mark_dirty_all l) h).
Proof.
  revert h n l. induction fuel as [|fuel IH]; intros h n l Hpath Hlen.
  { destruct Hpath; simpl in Hlen; lia. }
  assert (∀ nd, nodes h !! n = Some nd →
    nodes (with_nodes (mark_dirty_all [n]) h) !! n
      = Some (set_isDirty true nd)) as Hn1.
  { intros nd Hn. simpl. rewrite lookup_alter, decide_True by done.
    by rewrite Hn. }
  simpl. inversion Hpath as [n' nd Hn Hp|n' nd p l' Hn Hp Hl]; simplify_eq.
  - erewrite run_bind_ret by (by eapply run_update_node_alter).
    erewrite run_bind_ret by (eapply run_get_node, Hn1, Hn).
    simpl. by rewrite Hp.
  - erewrite run_bind_ret by (by eapply run_update_node_alter).
    erewrite run_bind_ret by (eapply run_get_node, Hn1, Hn).
    simpl. rewrite Hp.
    erewrite IH;
      [|by apply (path_to_root_mark _ _ _ [n])|simpl in Hlen; lia].
    unfold with_nodes. simpl. by rewrite mark_dirty_all_alter.
Qed.

Lemma elem_of_dirtySet h a :
  a ∈ dirtySet h ↔ ∃ nd, nodes h !! a = Some nd ∧ isDirty nd = true.
Proof.
  unfold dirtySet. rewrite elem_of_dom. unfold is_Some.
  setoid_rewrite map_lookup_filter_Some. naive_solver.
Qed.

Lemma elem_of_holders h E a :
  a ∈ holders h E ↔ ∃ nd, nodes h !! a = Some nd ∧ _element nd = Some E.
Proof.
  unfold holders. rewrite elem_of_dom. unfold is_Some.
  setoid_rewrite map_lookup_filter_Some. naive_solver.
Qed.

Lemma dirtySet_mark_dirty_all h l :
  (∀ a, a ∈ l → is_Some (nodes h !! a)) →
  dirtySet (with_nodes (mark_dirty_all l) h) = dirtySet h ∪ list_to_set l.
Proof.
  intros Hall. apply set_eq; intros a.
  rewrite elem_of_union, elem_of_list_to_set, !elem_of_dirtySet. simpl.
  rewrite lookup_mark_dirty_all. destruct (decide (a ∈ l)) as [Hin|Hnin].
  - destruct (Hall a Hin) as [nd Hnd]. rewrite Hnd. simpl.
    split; [by right|]. intros _. eauto.
  - naive_solver.
Qed.

Lemma elem_of_concat (a : node_ref) (ls : list (list node_ref)) :
  a ∈ concat ls ↔ ∃ l, a ∈ l ∧ l ∈ ls.
Proof.
  induction ls as [|l ls IH]; simpl.
  - split; [by intros ?%elem_of_nil|]. by intros (? & _ & ?%elem_of_nil).
  - rewrite elem_of_app, IH. setoid_rewrite elem_of_cons. naive_solver.
Qed.

Lemma run_markDirty_each fuel h ns ls :
  Forall2 (path_to_root h) ns ls →
  Forall (λ l, length l ≤ fuel) ls →
  markDirty_each fuel ns h =
    (Ret tt, with_nodes (mark_dirty_all (concat ls)) h).
Proof.
  intros Hpaths. revert h Hpaths.
  induction ns as [|n ns IH] in ls |- *; intros h Hpaths Hlen.
  - apply Forall2_nil_inv_l in Hpaths as ->. simpl.
    rewrite run_mret. unfold with_nodes, mark_dirty_all. simpl.
    by rewrite heap_eta.
  - apply Forall2_cons_inv_l in Hpaths as (l & ls' & Hl & Hls & ->).
    apply Forall_cons in Hlen as [Hlen Hlens]. simpl.
    erewrite run_bind_ret by (by apply run_markDirty).
    erewrite IH; [|eapply Forall2_impl; [done|]|done].
    + unfold with_nodes. simpl. f_equal. f_equal. apply mark_dirty_all_app.
    + intros. by apply path_to_root_mark.
Qed.

Lemma path_to_root_alter h n l k f :
  (∀ nd, parent (f nd) = parent nd) →
  path_to_root h n l → path_to_root (with_nodes (alter f k) h) n l.
Proof.
  intros Hf. apply path_to_root_parents. intros j. simpl.
  rewrite lookup_alter. case_decide; [subst|done].
  destruct (nodes h !! j); simpl; by rewrite ?Hf.
Qed.

Lemma chain3_path0 : path_to_root Scenario.chain3 0 [0].
Proof. eapply path_root; reflexivity. Qed.

Lemma chain3_path1 : path_to_root Scenario.chain3 1 [1; 0].
Proof. eapply path_step; [reflexivity..|]. apply chain3_path0. Qed.

Lemma chain3_path2 : path_to_root Scenario.chain3 2 [2; 1; 0].
Proof. eapply path_step; [reflexivity..|]. apply chain3_path1. Qed.

Lemma chain3_clean : dirtySet Scenario.chain3 = ∅.
Proof. reflexivity. Qed.

(** ** Dirty propagation *)

(** C2. In a store where each node of [ns] has a finite parent chain
    ([ls] lists, for each, the node followed by its ancestors up to the
    root): a call of [markDirty] on any of them returns and leaves the
    node and every one of its ancestors dirty; and the whole sequence of
    calls returns and leaves dirty exactly the nodes that were dirty
    before together with the union of the paths, so that from an
    all-clean store the dirty set is exactly that union. *)
Theorem markDirty_propagates h fuel ns ls :
  Forall2 (path_to_root h) ns ls →
  Forall (λ l, length l ≤ fuel) ls →
  Forall2 (λ n l, ∃ h1, RenderNode.markDirty fuel n h = (Ret tt, h1) ∧
                         ∀ a, a ∈ l → a ∈ dirtySet h1) ns ls ∧
  ∃ h', markDirty_each fuel ns h = (Ret tt, h') ∧
        dirtySet h' = dirtySet h ∪ list_to_set (concat ls) ∧
        (dirtySet h = ∅ → dirtySet h' = list_to_set (concat ls)).
Proof.
  intros Hpaths Hlen. split.
  - revert Hlen. induction Hpaths as [|n l ns ls Hl _ IH]; intros Hlen;
      [constructor|].
    apply Forall_cons in Hlen as [Hlen Hlens].
    constructor; [|by apply IH].
    eexists. split; [by apply run_markDirty|].
    intros a Ha. rewrite dirtySet_mark_dirty_all; [set_solver|].
    intros b Hb. by eapply path_to_root_allocated.
  - eexists. split; [by apply run_markDirty_each|].
    assert (dirtySet (with_nodes (mark_dirty_all (concat ls)) h)
            = dirtySet h ∪ list_to_set (concat ls)) as Heq.
    { apply dirtySet_mark_dirty_all. intros a Ha.
      apply elem_of_concat in Ha as (l & Hal & Hl).
      apply list_elem_of_lookup in Hl as [i Hi].
      destruct (Forall2_lookup_r _ _ _ _ _ Hpaths Hi) as (n & _ & Hn).
      by eapply path_to_root_allocated. }
    split; [done|]. intros Hclean. rewrite Heq, Hclean. set_solver.
Qed.

Lemma markDirty_propagates_witness :
  Forall2 (λ n l, ∃ h1,
      RenderNode.markDirty 3 n Scenario.chain3 = (Ret tt, h1) ∧
      ∀ a, a ∈ l → a ∈ dirtySet h1) [2; 1] [[2; 1; 0]; [1; 0]] ∧
  ∃ h', markDirty_each 3 [2; 1] Scenario.chain3 = (Ret tt, h') ∧
        dirtySet h' = list_to_set (concat [[2; 1; 0]; [1; 0]]).
Proof.
  destruct (markDirty_propagates Scenario.chain3 3 [2; 1]
              [[2; 1; 0]; [1; 0]]) as (Hone & h' & Hrun & _ & Hclean).
  - repeat constructor;
      [apply chain3_path2 | apply chain3_path1].
  - repeat constructor; simpl; lia.
  - split; [exact Hone|]. exists h'. split; [exact Hrun|].
    apply Hclean, chain3_clean.
Defined.

(** C3. In a store where the parent chain of [n] is finite, calling
    [markDirty] on [n] twice returns and yields exactly the store that a
    single call yields: the same [isDirty] flag on every node, hence the
    same set of dirty nodes. *)
Theorem markDirty_idempotent h fuel n l :
  path_to_root h n l →
  length l ≤ fuel →
  ∃ h1, RenderNode.markDirty fuel n h = (Ret tt, h1) ∧
        RenderNode.markDirty fuel n h1 = (Ret tt, h1) ∧
        (RenderNode.markDirty fuel n;; RenderNode.markDirty fuel n) h
          = (Ret tt, h1) ∧
        dirtySet
          ((RenderNode.markDirty fuel n;; RenderNode.markDirty fuel n) h).2
          = dirtySet h1.
Proof.
  intros Hpath Hlen.
  assert (RenderNode.markDirty fuel n (with_nodes (mark_dirty_all l) h)
          = (Ret tt, with_nodes (mark_dirty_all l) h)) as Hagain.
  { erewrite run_markDirty; [|by apply path_to_root_mark|done].
    unfold with_nodes. simpl. by rewrite mark_dirty_all_idem. }
  eexists. split; [by apply run_markDirty|]. split; [done|].
  erewrite run_bind_ret by (by apply run_markDirty).
  by rewrite Hagain.
Qed.

Lemma markDirty_idempotent_witness :
  ∃ h1, RenderNode.markDirty 3 2 Scenario.chain3 = (Ret tt, h1) ∧
        RenderNode.markDirty 3 2 h1 = (Ret tt, h1) ∧
        (RenderNode.markDirty 3 2;; RenderNode.markDirty 3 2) Scenario.chain3
          = (Ret tt, h1) ∧
        dirtySet
          ((RenderNode.markDirty 3 2;; RenderNode.markDirty 3 2)
             Scenario.chain3).2
          = dirtySet h1.
Proof.
  apply (markDirty_idempotent Scenario.chain3 3 2 [2; 1; 0]).
  - apply chain3_path2.
  - simpl. lia.
Defined.

(** ** Cleaning and removal *)

(** C4. [markClean] on [n] returns, clears the [isDirty] flag of [n],
    changes no other field of [n], no other node and no render tree; in
    particular, in a chain root → child → [n] whose root and child are
    dirty, both are still dirty afterwards while [n] is clean. *)
Theorem markClean_no_propagation h n nd :
  nodes h !! n = Some nd →
  ∃ h' nd',
    RenderNode.markClean n h = (Ret tt, h') ∧
    nodes h' !! n = Some nd' ∧
    isDirty nd' = false ∧
    set_isDirty (isDirty nd) nd' = nd ∧
    (∀ m, m ≠ n → nodes h' !! m = nodes h !! m) ∧
    trees h' = trees h ∧
    (∀ child root,
       path_to_root h n [n; child; root] →
       child ∈ dirtySet h → root ∈ dirtySet h →
       child ∈ dirtySet h' ∧ root ∈ dirtySet h' ∧ n ∉ dirtySet h').
Proof.
  intros Hn. exists (with_nodes (insert n (set_isDirty false nd)) h).
  exists (set_isDirty false nd).
  split; [by apply run_update_node|].
  split; [apply lookup_insert_eq|]. split; [done|].
  split; [by destruct nd|].
  split; [intros m Hm; simpl; by rewrite lookup_insert_ne|].
  split; [done|].
  intros child root Hpath Hc Hr.
  apply path_to_root_NoDup in Hpath.
  rewrite !elem_of_dirtySet in *. simpl.
  apply NoDup_cons in Hpath as [Hn1 Hpath].
  rewrite !lookup_insert_ne by set_solver.
  split; [done|]. split; [done|].
  rewrite lookup_insert_eq. by intros (? & [= <-] & ?).
Qed.

Lemma markClean_no_propagation_witness :
  let h := (RenderNode.markDirty 3 2 Scenario.chain3).2 in
  ∃ h' nd',
    RenderNode.markClean 2 h = (Ret tt, h') ∧
    nodes h' !! 2 = Some nd' ∧
    isDirty nd' = false ∧
    set_isDirty true nd' = set_isDirty true (Scenario.clean_node (Some 1)) ∧
    (∀ m, m ≠ 2 → nodes h' !! m = nodes h !! m) ∧
    trees h' = trees h ∧
    1 ∈ dirtySet h' ∧ 0 ∈ dirtySet h' ∧ 2 ∉ dirtySet h'.
Proof.
  intros h.
  destruct (markClean_no_propagation h 2
              (set_isDirty true (Scenario.clean_node (Some 1))))
    as (h' & nd' & Hrun & Hnd' & Hclean & Hsame & Hframe & Htrees & Hscen).
  - reflexivity.
  - exists h', nd'. repeat (split; [assumption|]).
    apply (Hscen 1 0).
    + eapply path_step; [reflexivity..|].
      eapply path_step; [reflexivity..|].
      eapply path_root; reflexivity.
    + apply elem_of_dirtySet. eexists. split; reflexivity.
    + apply elem_of_dirtySet. eexists. split; reflexivity.
Defined.

(** C5. In a store where the parent chain of [n] is finite, with [l]
    the ancestors of [n] from its parent (if any) up to the root:
    [scheduleForRemoval] on [n] returns, sets [isRemoved] on [n], leaves
    the parent and every further ancestor dirty, and destroys nothing:
    the [postNode], [element] and [renderTree] of [n] and every element
    index are as before. *)
Theorem scheduleForRemoval_deferred h fuel n nd l :
  nodes h !! n = Some nd →
  path_to_root h n (n :: l) →
  length l ≤ fuel →
  ∃ h' nd',
    RenderNode.scheduleForRemoval fuel n h = (Ret tt, h') ∧
    nodes h' !! n = Some nd' ∧
    isRemoved nd' = true ∧
    (∀ p, parent nd = Some p → p ∈ dirtySet h') ∧
    (∀ a, a ∈ l → a ∈ dirtySet h') ∧
    dirtySet h' = dirtySet h ∪ list_to_set l ∧
    postNode nd' = postNode nd ∧
    _element nd' = _element nd ∧
    renderTree nd' = renderTree nd ∧
    parent nd' = parent nd ∧
    trees h' = trees h.
Proof.
  intros Hn Hpath Hlen.
  pose proof (path_to_root_NoDup _ _ _ Hpath) as [Hnl _]%NoDup_cons.
  set (h1 := with_nodes (alter (set_isRemoved true) n) h).
  assert (nodes h1 !! n = Some (set_isRemoved true nd)) as Hn1.
  { simpl. rewrite lookup_alter, decide_True by done. by rewrite Hn. }
  assert (dirtySet h1 = dirtySet h) as Hd1.
  { apply set_eq; intros a. rewrite !elem_of_dirtySet. simpl.
    rewrite lookup_alter. case_decide; [subst|done].
    rewrite Hn. simpl. split; intros (? & [= <-] & ?); eauto. }
  assert (RenderNode.scheduleForRemoval fuel n h
          = (Ret tt, with_nodes (mark_dirty_all l) h1)) as Hrun.
  { unfold RenderNode.scheduleForRemoval.
    erewrite run_bind_ret by (by eapply run_update_node_alter).
    erewrite run_bind_ret by (by eapply run_get_node).
    simpl. inversion Hpath as [? nd0 Hn0 Hp|? nd0 p ? Hn0 Hp Hl];
      simplify_eq; rewrite Hp.
    - by rewrite run_mret.
    - apply run_markDirty; [|done]. by apply path_to_root_alter. }
  assert (∀ a, a ∈ l → is_Some (nodes h1 !! a)) as Halloc.
  { intros a Ha. simpl. rewrite lookup_alter_is_Some.
    eapply path_to_root_allocated; [done|]. set_solver. }
  exists (with_nodes (mark_dirty_all l) h1), (set_isRemoved true nd).
  split; [done|].
  split. { simpl. rewrite lookup_mark_dirty_all. by rewrite decide_False. }
  split; [done|].
  rewrite dirtySet_mark_dirty_all, Hd1 by done.
  split.
  { intros p Hp. inversion Hpath as [|? nd0 p0 ? Hn0 Hp0 Hl]; simplify_eq.
    apply path_to_root_head in Hl as [l' ->]. set_solver. }
  split; [set_solver|]. done.
Qed.

Lemma scheduleForRemoval_deferred_witness :
  ∃ h' nd',
    RenderNode.scheduleForRemoval 2 2 Scenario.chain3 = (Ret tt, h') ∧
    nodes h' !! 2 = Some nd' ∧
    isRemoved nd' = true ∧
    (∀ p, parent (Scenario.clean_node (Some 1)) = Some p → p ∈ dirtySet h') ∧
    (∀ a, a ∈ [1; 0] → a ∈ dirtySet h') ∧
    dirtySet h' = dirtySet Scenario.chain3 ∪ list_to_set [1; 0] ∧
    postNode nd' = postNode (Scenario.clean_node (Some 1)) ∧
    _element nd' = _element (Scenario.clean_node (Some 1)) ∧
    renderTree nd' = renderTree (Scenario.clean_node (Some 1)) ∧
    parent nd' = parent (Scenario.clean_node (Some 1)) ∧
    trees h' = trees Scenario.chain3.
Proof.
  apply (scheduleForRemoval_deferred Scenario.chain3 2 2
           (Scenario.clean_node (Some 1)) [1; 0]).
  - reflexivity.
  - apply chain3_path2.
  - simpl. lia.
Defined.

(** ** The element setter and the element index *)

Lemma run_get_renderTree h n nd :
  nodes h !! n = Some nd →
  RenderNode.get_renderTree n h = (Ret (renderTree nd), h).
Proof.
  intros Hn. unfold RenderNode.get_renderTree.
  by erewrite run_bind_ret by (by eapply run_get_node).
Qed.

Lemma run_deref {A} (o : option A) a h :
  o = Some a → deref o h = (Ret a, h).
Proof. by intros ->. Qed.

Lemma run_deref_null {A} h : deref (@None A) h = (Throw TypeError, h).
Proof. done. Qed.

Lemma set_elements_id tr : set_elements (elements tr) tr = tr.
Proof. by destruct tr. Qed.

(** The setter on a node that has a render tree. *)
Lemma run_set_element h n nd t tr new :
  nodes h !! n = Some nd →
  renderTree nd = Some t →
  trees h !! t = Some tr →
  RenderNode.set_element n new h
    = (Ret tt, after_set_element h n nd new t tr).
Proof.
  intros Hn Ht Htr. unfold after_set_element, RenderNode.set_element,
    RenderTree.removeElementRenderNode, RenderTree.setElementRenderNode.
  erewrite run_bind_ret by (by eapply run_get_node).
  erewrite run_bind_ret by (by eapply run_update_node).
  assert (∀ ts, RenderNode.get_renderTree n
                  (mkHeap (<[n := set__element new nd]> (nodes h)) ts)
                = (Ret (Some t), mkHeap (<[n := set__element new nd]> (nodes h)) ts))
    as Hrt.
  { intros ts. erewrite run_get_renderTree by apply lookup_insert_eq.
    simpl. by rewrite Ht. }
  unfold reindex. destruct (_element nd) as [c|], new as [e|]; simpl.
  - erewrite run_bind_ret; cycle 1.
    { erewrite run_bind_ret by apply Hrt.
      erewrite run_bind_ret by (by apply run_deref).
      by eapply run_update_tree. }
    erewrite run_bind_ret by apply Hrt.
    erewrite run_bind_ret by (by apply run_deref).
    erewrite run_update_tree by (simpl; apply lookup_insert_eq).
    unfold with_trees, with_nodes. simpl. by rewrite insert_insert_eq.
  - erewrite run_bind_ret; cycle 1.
    { erewrite run_bind_ret by apply Hrt.
      erewrite run_bind_ret by (by apply run_deref).
      by eapply run_update_tree. }
    by rewrite run_mret.
  - erewrite run_bind_ret by (by apply run_mret).
    erewrite run_bind_ret by apply Hrt.
    erewrite run_bind_ret by (by apply run_deref).
    by erewrite run_update_tree by done.
  - erewrite run_bind_ret by (by apply run_mret).
    rewrite run_mret. unfold with_nodes. simpl.
    by rewrite set_elements_id, (insert_id (trees h)).
Qed.

(** The setter on a node without render tree: the [_element] slot is
    written first, then the first use of the tree is a TypeError. *)
Lemma run_set_element_no_tree h n nd new :
  nodes h !! n = Some nd →
  renderTree nd = None →
  RenderNode.set_element n new h =
    (match _element nd, new with
     | None, None => Ret tt
     | _, _ => Throw TypeError
     end,
     with_nodes (insert n (set__element new nd)) h).
Proof.
  intros Hn Ht. unfold RenderNode.set_element.
  erewrite run_bind_ret by (by eapply run_get_node).
  erewrite run_bind_ret by (by eapply run_update_node).
  assert (∀ {A} (k : tree_ref → M A),
            (rt ← RenderNode.get_renderTree n; t ← deref rt; k t)
              (with_nodes (insert n (set__element new nd)) h)
            = (Throw TypeError, with_nodes (insert n (set__element new nd)) h))
    as Hnull.
  { intros A k.
    erewrite run_bind_ret
      by (eapply run_get_renderTree; simpl; apply lookup_insert_eq).
    simpl. rewrite Ht. by erewrite run_bind_throw by apply run_deref_null. }
  destruct (_element nd) as [c|], new as [e|]; simpl.
  - by erewrite run_bind_throw by apply Hnull.
  - by erewrite run_bind_throw by apply Hnull.
  - erewrite run_bind_ret by (by apply run_mret). apply Hnull.
  - erewrite run_bind_ret by (by apply run_mret). by rewrite run_mret.
Qed.

Lemma lookup_reindex n old new (idx : gmap Element node_ref) E :
  reindex n old new idx !! E =
    if decide (new = Some E) then Some n
    else if decide (old = Some E) then None
    else idx !! E.
Proof.
  unfold reindex. destruct old as [c|], new as [e|];
    repeat case_decide; simplify_eq;
    rewrite ?lookup_insert_eq, ?lookup_insert_ne, ?lookup_delete_eq,
      ?lookup_delete_ne by congruence; done.
Qed.

Section set_element_step.

Context (h : Heap) (n : node_ref) (nd : RenderNode) (t : tree_ref)
  (tr : RenderTree) (new : option Element).
Hypothesis Hn : nodes h !! n = Some nd.
Hypothesis Htr : trees h !! t = Some tr.

Local Abbreviation h' := (after_set_element h n nd new t tr).

Lemma holders_after_set E m :
  m ∈ holders h' E ↔ (m = n ∧ new = Some E) ∨ (m ≠ n ∧ m ∈ holders h E).
Proof using Hn.
  rewrite !elem_of_holders. simpl. destruct (decide (m = n)) as [->|Hne].
  - rewrite lookup_insert_eq. split.
    + intros (? & [= <-] & ?). by left.
    + intros [[_ ->]|[? _]]; [|done]. by eexists.
  - rewrite lookup_insert_ne by done. naive_solver.
Qed.

Lemma lookup_index_after_set E :
  lookup_index h' t E =
    if decide (new = Some E) then Some n
    else if decide (_element nd = Some E) then None
    else lookup_index h t E.
Proof using Htr.
  unfold lookup_index. simpl. rewrite lookup_insert_eq, Htr. simpl.
  apply lookup_reindex.
Qed.

Lemma shares_tree_after_set : shares_tree h t → shares_tree h' t.
Proof using Hn.
  unfold shares_tree. simpl. intros Hsh.
  apply map_Forall_insert_2; [|done]. apply (Hsh _ _ Hn).
Qed.

Lemma no_stale_after_set : no_stale h t → no_stale h' t.
Proof using Hn Htr.
  intros Hst E m. rewrite lookup_index_after_set, holders_after_set.
  repeat case_decide; [naive_solver|done|].
  intros Hm. right. split; [|by apply Hst].
  intros ->. apply Hst, elem_of_holders in Hm as (nd0 & ? & ?).
  naive_solver.
Qed.

Lemma consistent_after_set :
  (∀ E, new = Some E → holders h E ⊆ {[n]}) →
  element_index_consistent h t → element_index_consistent h' t.
Proof using Hn Htr.
  intros Hex Hc.
  assert (∀ E m, lookup_index h' t E = Some m ↔ m ∈ holders h' E) as Hiff.
  { intros E m. destruct (Hc E) as [Huniq Hlk].
    rewrite lookup_index_after_set, holders_after_set.
    assert (_element nd = Some E → n ∈ holders h E) as Hold.
    { intros ?. apply elem_of_holders. eauto. }
    repeat case_decide.
    - specialize (Hex E). set_solver.
    - split; [done|]. intros [[_ ?]|[Hne Hm]]; [done|].
      destruct Hne. apply Huniq; auto.
    - rewrite Hlk. split; [|naive_solver]. intros Hm. right.
      split; [|done]. intros ->.
      apply elem_of_holders in Hm as (nd0 & ? & ?). naive_solver. }
  intros E. split; [|apply Hiff].
  intros n1 n2 H1%Hiff H2%Hiff. congruence.
Qed.

End set_element_step.

(** An element index holds no stale entry after any sequence of
    assignments, and stays consistent along a sequence that never gives a
    node an element held by another node. *)
Lemma run_assign_each asg : ∀ h t tr,
  trees h !! t = Some tr →
  shares_tree h t →
  Forall (λ a, is_Some (nodes h !! a.1)) asg →
  no_stale h t →
  ∃ h', assign_each asg h = (Ret tt, h') ∧
        no_stale h' t ∧
        (element_index_consistent h t → exclusive h asg = true →
         element_index_consistent h' t).
Proof.
  induction asg as [|[n new] asg IH]; intros h t tr Htr Hsh Hall Hst.
  { by exists h. }
  apply Forall_cons in Hall as [[nd Hn] Hall]. simpl in Hn.
  pose proof (run_set_element h n nd t tr new Hn (Hsh _ _ Hn) Htr) as Hrun.
  set (h1 := after_set_element h n nd new t tr) in Hrun.
  destruct (IH h1 t
    (set_elements (reindex n (_element nd) new (elements tr)) tr))
    as (h' & Hrun' & Hst' & Hc').
  - simpl. apply lookup_insert_eq.
  - by apply shares_tree_after_set.
  - eapply Forall_impl; [done|]. intros [m e] Hm. simpl in *.
    by rewrite lookup_insert_is_Some'; right.
  - by apply no_stale_after_set.
  - exists h'. simpl. erewrite run_bind_ret by done.
    split; [done|]. split; [done|].
    intros Hc Hex. rewrite Hrun in Hex. simpl in Hex.
    apply andb_prop in Hex as [Hex1 Hex2].
    apply Hc'; [|done]. apply consistent_after_set; [done..| |done].
    intros E ->. by apply bool_decide_eq_true in Hex1.
Qed.

(** A store whose nodes hold no element and whose index is empty is
    consistent. *)
Lemma unrendered_store_consistent h t tr :
  map_Forall (λ _ nd, _element nd = None) (nodes h) →
  trees h !! t = Some tr →
  elements tr = ∅ →
  no_stale h t ∧ element_index_consistent h t.
Proof.
  intros Hnone Htr Hidx.
  assert (∀ E n, n ∉ holders h E) as Hno.
  { intros E n (nd & Hn & He)%elem_of_holders.
    specialize (Hnone _ _ Hn). simpl in Hnone. congruence. }
  assert (∀ E, lookup_index h t E = None) as Hlk.
  { intros E. unfold lookup_index. by rewrite Htr, Hidx. }
  split.
  - intros E n. by rewrite Hlk.
  - intros E. split; [intros n1 n2 H1; by destruct (Hno E n1)|].
    intros n. rewrite Hlk. split; [done|]. intros H1. by destruct (Hno E n).
Qed.

Lemma two_nodes_shares_tree : shares_tree Scenario.two_nodes 0.
Proof.
  unfold shares_tree. apply (bool_decide_unpack _). by vm_compute.
Qed.

Lemma two_nodes_consistent :
  no_stale Scenario.two_nodes 0 ∧ element_index_consistent Scenario.two_nodes 0.
Proof.
  apply (unrendered_store_consistent _ _ (mkRenderTree 100 ∅));
    [|reflexivity..].
  apply (bool_decide_unpack _). by vm_compute.
Qed.

(** C1, as the code has it. In a store whose render nodes all belong to
    the tree [t], whose index holds no stale entry: a single assignment
    [n.element = new] returns, stores [new] in [n], touches no other
    node, and changes the lookups of the index exactly by dropping the
    previous element of [n] (when not null) and mapping [new] (when not
    null) to [n]; every sequence of assignments returns and leaves no
    stale entry (a lookup answers nothing or a node that holds the
    element); and when no assignment gives a node an element that
    another node holds at that moment, consistency is kept: at most one
    node holds any element and the lookup answers exactly that node, or
    nothing when no node holds it. *)
Theorem element_index_maintained h t tr asg :
  trees h !! t = Some tr →
  shares_tree h t →
  Forall (λ a, is_Some (nodes h !! a.1)) asg →
  no_stale h t →
  (∀ n nd new, nodes h !! n = Some nd →
     ∃ h1 nd1,
       RenderNode.set_element n new h = (Ret tt, h1) ∧
       nodes h1 !! n = Some nd1 ∧ _element nd1 = new ∧
       (∀ m, m ≠ n → nodes h1 !! m = nodes h !! m) ∧
       ∀ E, lookup_index h1 t E =
              if decide (new = Some E) then Some n
              else if decide (_element nd = Some E) then None
              else lookup_index h t E) ∧
  ∃ h', assign_each asg h = (Ret tt, h') ∧
        no_stale h' t ∧
        (element_index_consistent h t → exclusive h asg = true →
         element_index_consistent h' t).
Proof.
  intros Htr Hsh Hall Hst. split; [|by eapply run_assign_each].
  intros n nd new Hn. eexists _, (set__element new nd).
  split; [by eapply run_set_element, Htr; [|apply (Hsh _ _ Hn)]|].
  split; [simpl; apply lookup_insert_eq|]. split; [done|].
  split; [intros m Hm; simpl; by rewrite lookup_insert_ne|].
  intros E. by apply lookup_index_after_set.
Qed.

Lemma element_index_maintained_witness :
  let asg := [(0, Some 7); (1, Some 8); (0, Some 9); (1, None)] in
  (∃ h1 nd1,
     RenderNode.set_element 0 (Some 7) Scenario.two_nodes
       = (Ret tt, h1) ∧
     nodes h1 !! 0 = Some nd1 ∧ _element nd1 = Some 7 ∧
     (∀ m, m ≠ 0 → nodes h1 !! m = nodes Scenario.two_nodes !! m) ∧
     ∀ E, lookup_index h1 0 E =
            if decide (Some 7 = Some E) then Some 0
            else if decide (_element (RenderNode.init None (Some 0)) = Some E)
                 then None
                 else lookup_index Scenario.two_nodes 0 E) ∧
  ∃ h', assign_each asg Scenario.two_nodes = (Ret tt, h') ∧
        no_stale h' 0 ∧ element_index_consistent h' 0.
Proof.
  intros asg.
  destruct (element_index_maintained Scenario.two_nodes 0
              (mkRenderTree 100 ∅) asg) as (Hstep & h' & Hrun & Hst & Hc).
  - reflexivity.
  - apply two_nodes_shares_tree.
  - repeat constructor; simpl; by eexists.
  - apply two_nodes_consistent.
  - split; [apply (Hstep 0 (RenderNode.init None (Some 0))); reflexivity|].
    exists h'. split; [exact Hrun|]. split; [exact Hst|].
    apply Hc; [apply two_nodes_consistent|].
    by vm_compute.
Defined.

(** C1 as stated fails: two nodes of one tree, starting unrendered with
    an empty index, are both assigned the element 7. Both assignments
    return, both nodes then hold 7, so consistency is lost; and once the
    second node gives 7 up again the first still holds it while the
    lookup answers nothing. *)
Lemma shared_element_breaks_consistency :
  let h := Scenario.two_nodes in
  let twice := assign_each [(0, Some 7); (1, Some 7)] h in
  let thrice := assign_each [(0, Some 7); (1, Some 7); (1, None)] h in
  shares_tree h 0 ∧ element_index_consistent h 0 ∧
  twice.1 = Ret tt ∧
  0 ∈ holders twice.2 7 ∧ 1 ∈ holders twice.2 7 ∧
  lookup_index twice.2 0 7 = Some 1 ∧
  ¬ element_index_consistent twice.2 0 ∧
  thrice.1 = Ret tt ∧
  0 ∈ holders thrice.2 7 ∧ lookup_index thrice.2 0 7 = None ∧
  ¬ element_index_consistent thrice.2 0.
Proof.
  intros h twice thrice.
  assert (0 ∈ holders twice.2 7) as H0
    by (apply elem_of_holders; eexists; split; reflexivity).
  assert (1 ∈ holders twice.2 7) as H1
    by (apply elem_of_holders; eexists; split; reflexivity).
  assert (0 ∈ holders thrice.2 7) as H0'
    by (apply elem_of_holders; eexists; split; reflexivity).
  split; [apply two_nodes_shares_tree|].
  split; [apply two_nodes_consistent|].
  split; [reflexivity|]. split; [done|]. split; [done|].
  split; [reflexivity|].
  split. { intros Hc. destruct (Hc 7) as [Huniq _].
           by specialize (Huniq 0 1 H0 H1). }
  split; [reflexivity|]. split; [done|]. split; [reflexivity|].
  intros Hc. destruct (Hc 7) as [_ Hlk]. by apply Hlk in H0'.
Qed.

(** ** Destruction *)

Lemma run_destroy_tail h n nd :
  nodes h !! n = Some nd →
  (update_node n (set_parent None);;
   update_node n (set_postNode None);;
   update_node n (set_renderTree None)) h =
    (Ret tt,
     with_nodes
       (insert n (set_renderTree None (set_postNode None (set_parent None nd))))
       h).
Proof.
  intros Hn.
  erewrite run_bind_ret by (by eapply run_update_node).
  erewrite run_bind_ret
    by (eapply run_update_node; simpl; apply lookup_insert_eq).
  erewrite run_update_node by (simpl; apply lookup_insert_eq).
  unfold with_nodes. simpl. by rewrite !insert_insert_eq.
Qed.

(** [destroy] on a node that has a render tree. *)
Lemma run_destroy h n nd t tr :
  nodes h !! n = Some nd →
  renderTree nd = Some t →
  trees h !! t = Some tr →
  RenderNode.destroy n h =
    (Ret tt,
     mkHeap (<[n := destroyed nd]> (nodes h))
            (<[t := set_elements (reindex n (_element nd) None (elements tr)) tr]>
               (trees h))).
Proof.
  intros Hn Ht Htr. unfold RenderNode.destroy.
  erewrite run_bind_ret by (by eapply run_set_element).
  erewrite run_destroy_tail by (simpl; apply lookup_insert_eq).
  unfold with_nodes. simpl. by rewrite insert_insert_eq.
Qed.

(** [destroy] on a node that has no render tree and holds no element. *)
Lemma run_destroy_no_tree h n nd :
  nodes h !! n = Some nd →
  renderTree nd = None →
  _element nd = None →
  RenderNode.destroy n h = (Ret tt, with_nodes (insert n (destroyed nd)) h).
Proof.
  intros Hn Ht He. unfold RenderNode.destroy.
  erewrite run_bind_ret
    by (erewrite run_set_element_no_tree by done; by rewrite He).
  erewrite run_destroy_tail by (simpl; apply lookup_insert_eq).
  unfold with_nodes. simpl. by rewrite insert_insert_eq.
Qed.

(** What [destroy] does to a well-formed node, in both cases. *)
Lemma run_destroy_ok h n nd :
  nodes h !! n = Some nd →
  node_ok h nd →
  ∃ h', RenderNode.destroy n h = (Ret tt, h') ∧
        nodes h' = <[n := destroyed nd]> (nodes h) ∧
        ∀ t E, lookup_index h' t E =
                 if decide (renderTree nd = Some t ∧ _element nd = Some E)
                 then None else lookup_index h t E.
Proof.
  intros Hn Hok. unfold node_ok in Hok.
  destruct (renderTree nd) as [t|] eqn:Ht.
  - destruct Hok as [tr Htr]. eexists. split; [by eapply run_destroy|].
    split; [done|]. intros t' E. unfold lookup_index. simpl.
    destruct (decide (t = t')) as [<-|Hne].
    + rewrite lookup_insert_eq, Htr.
      pose proof (lookup_reindex n (_element nd) None (elements tr) E) as Hr.
      simpl in *. rewrite Hr.
      repeat case_decide; naive_solver.
    + rewrite lookup_insert_ne by done.
      rewrite decide_False by naive_solver. done.
  - eexists. split; [by eapply run_destroy_no_tree|]. split; [done|].
    intros t' E. by rewrite decide_False by naive_solver.
Qed.

(** [lookup_index] is what [getElementRenderNode] returns. *)
Lemma run_getElementRenderNode h t tr E :
  trees h !! t = Some tr →
  RenderTree.getElementRenderNode t E h = (Ret (lookup_index h t E), h).
Proof.
  intros Htr. unfold RenderTree.getElementRenderNode, lookup_index.
  erewrite run_bind_ret by (by eapply run_get_tree). by rewrite Htr.
Qed.

(** ** Well-formed stores

    The methods of the class keep every node well formed whenever they
    return: a node that holds an element has its render tree. *)

Lemma node_ok_trees h h' nd :
  (∀ t, is_Some (trees h !! t) → is_Some (trees h' !! t)) →
  node_ok h nd → node_ok h' nd.
Proof. unfold node_ok. destruct (renderTree nd); auto. Qed.

Lemma heap_ok_insert h h' n nd :
  nodes h' = <[n := nd]> (nodes h) →
  (∀ t, is_Some (trees h !! t) → is_Some (trees h' !! t)) →
  node_ok h' nd →
  heap_ok h → heap_ok h'.
Proof.
  unfold heap_ok. intros -> Htrees Hnd Hok.
  apply map_Forall_insert_2; [done|].
  intros m md Hm. eapply node_ok_trees; [done|]. by eapply Hok.
Qed.

Lemma heap_ok_empty ts : heap_ok (mkHeap ∅ ts).
Proof. apply map_Forall_empty. Qed.

Lemma heap_ok_new h pn t :
  heap_ok h →
  (∀ t', t = Some t' → is_Some (trees h !! t')) →
  heap_ok (RenderNode.new pn t h).2.
Proof.
  intros Hok Ht. eapply heap_ok_insert; [reflexivity|done| |done].
  unfold node_ok. simpl. destruct t; auto.
Qed.

Lemma heap_ok_update_node h n f h' :
  (∀ nd, renderTree (f nd) = renderTree nd ∧ _element (f nd) = _element nd) →
  heap_ok h → update_node n f h = (Ret tt, h') → heap_ok h'.
Proof.
  intros Hf Hok. unfold update_node.
  destruct (nodes h !! n) as [nd|] eqn:Hn; [|done]. intros [= <-].
  eapply heap_ok_insert; [reflexivity|done| |done].
  specialize (Hok _ _ Hn). unfold node_ok in *. simpl in *.
  destruct (Hf nd) as [-> ->]. done.
Qed.

Lemma heap_ok_mark_dirty_all h l :
  heap_ok h → heap_ok (with_nodes (mark_dirty_all l) h).
Proof.
  intros Hok m md. simpl. rewrite lookup_mark_dirty_all.
  case_decide; [|apply Hok].
  destruct (nodes h !! m) as [nd|] eqn:Hm; [|done]. intros [= <-].
  apply (Hok _ _ Hm).
Qed.

Lemma heap_ok_set_element h n new h' :
  heap_ok h → RenderNode.set_element n new h = (Ret tt, h') → heap_ok h'.
Proof.
  intros Hok Hrun.
  destruct (nodes h !! n) as [nd|] eqn:Hn; cycle 1.
  { unfold RenderNode.set_element, mbind, M_bind, get_node in Hrun.
    by rewrite Hn in Hrun. }
  pose proof (Hok _ _ Hn) as Hnd. unfold node_ok in Hnd. simpl in Hnd.
  destruct (renderTree nd) as [t|] eqn:Ht.
  - destruct Hnd as [tr Htr].
    erewrite run_set_element in Hrun by done. simplify_eq.
    eapply heap_ok_insert; [reflexivity| | |done].
    + intros t' Ht'. simpl. by rewrite lookup_insert_is_Some'; right.
    + unfold node_ok. simpl. rewrite Ht, lookup_insert_eq. by eexists.
  - erewrite run_set_element_no_tree in Hrun by done.
    rewrite Hnd in Hrun. destruct new; simplify_eq.
    eapply heap_ok_insert; [reflexivity|done| |done].
    unfold node_ok. simpl. by rewrite Ht.
Qed.

Lemma heap_ok_destroy h n h' :
  heap_ok h → RenderNode.destroy n h = (Ret tt, h') → heap_ok h'.
Proof.
  intros Hok Hrun.
  destruct (nodes h !! n) as [nd|] eqn:Hn; cycle 1.
  { unfold RenderNode.destroy, RenderNode.set_element, mbind, M_bind,
      get_node in Hrun. by rewrite Hn in Hrun. }
  pose proof (Hok _ _ Hn) as Hnd. unfold node_ok in Hnd. simpl in Hnd.
  destruct (renderTree nd) as [t|] eqn:Ht.
  - destruct Hnd as [tr Htr].
    erewrite run_destroy in Hrun by done. simplify_eq.
    eapply heap_ok_insert; [reflexivity| |done|done].
    intros t' Ht'. simpl. by rewrite lookup_insert_is_Some'; right.
  - erewrite run_destroy_no_tree in Hrun by done. simplify_eq.
    by eapply heap_ok_insert.
Qed.

Lemma heap_ok_markClean h n h' :
  heap_ok h → RenderNode.markClean n h = (Ret tt, h') → heap_ok h'.
Proof. by apply heap_ok_update_node. Qed.

Lemma heap_ok_markDirty fuel : ∀ n h h',
  heap_ok h → RenderNode.markDirty fuel n h = (Ret tt, h') → heap_ok h'.
Proof.
  induction fuel as [|fuel IH]; intros n h h' Hok Hrun; [done|].
  simpl in Hrun. unfold mbind, M_bind in Hrun.
  destruct (update_node n (set_isDirty true) h) as [[[]| | |] h1] eqn:Hu;
    try done.
  apply heap_ok_update_node in Hu; [|done..].
  unfold get_node in Hrun. destruct (nodes h1 !! n) as [nd|]; [|done].
  destruct (parent nd) as [p|]; [by eapply IH|].
  by injection Hrun as <-.
Qed.

Lemma heap_ok_scheduleForRemoval fuel n h h' :
  heap_ok h → RenderNode.scheduleForRemoval fuel n h = (Ret tt, h') →
  heap_ok h'.
Proof.
  intros Hok Hrun. unfold RenderNode.scheduleForRemoval, mbind, M_bind in Hrun.
  destruct (update_node n (set_isRemoved true) h) as [[[]| | |] h1] eqn:Hu;
    try done.
  apply heap_ok_update_node in Hu; [|done..].
  unfold get_node in Hrun. destruct (nodes h1 !! n) as [nd|]; [|done].
  destruct (parent nd) as [p|]; [by eapply heap_ok_markDirty|].
  by injection Hrun as <-.
Qed.

Lemma parent_node_ok : node_ok Scenario.family Scenario.parent_node.
Proof. by eexists. Qed.

(** C6. [destroy] on a well-formed node [n] returns; afterwards the
    [element], [parent] and [postNode] of [n] are null, the element that
    [n] had registered is no longer mapped by the index of its tree and
    no element is held by [n]; the call destroys no child: the child list
    of [n] and every other node of the store are as before. Children are
    destroyed through the [freeItem] hook instead: the list that the
    [childNodes] getter creates carries the hook that calls [destroy] on
    the item. *)
Theorem destroy_releases h n nd :
  nodes h !! n = Some nd →
  node_ok h nd →
  ∃ h' nd',
    RenderNode.destroy n h = (Ret tt, h') ∧
    nodes h' !! n = Some nd' ∧
    _element nd' = None ∧ parent nd' = None ∧ postNode nd' = None ∧
    (∀ t E, renderTree nd = Some t → _element nd = Some E →
            lookup_index h' t E = None) ∧
    (∀ E, n ∉ holders h' E) ∧
    _childNodes nd' = _childNodes nd ∧
    (∀ m, m ≠ n → nodes h' !! m = nodes h !! m) ∧
    (∀ l c cd, _childNodes nd = Some l → c ∈ items l → c ≠ n →
               nodes h !! c = Some cd → nodes h' !! c = Some cd) ∧
    (∀ h0 nd0, nodes h0 !! n = Some nd0 → _childNodes nd0 = None →
       ∃ l, RenderNode.childNodes n h0
              = (Ret l, with_nodes (insert n (set__childNodes (Some l) nd0)) h0) ∧
            freeItem l = Some HookDestroy ∧
            ∀ item, RenderNode.call_hook HookDestroy item
                      = RenderNode.destroy item).
Proof.
  intros Hn Hok.
  destruct (run_destroy_ok h n nd Hn Hok) as (h' & Hrun & Hnodes & Hlk).
  exists h', (destroyed nd). split; [done|].
  assert (nodes h' !! n = Some (destroyed nd)) as Hn'
    by (rewrite Hnodes; apply lookup_insert_eq).
  assert (∀ m, m ≠ n → nodes h' !! m = nodes h !! m) as Hframe
    by (intros m Hm; rewrite Hnodes; by apply lookup_insert_ne).
  repeat (split; [done|]).
  split. { intros t E Ht He. rewrite Hlk. by rewrite decide_True. }
  split. { intros E (nd' & Hnd' & He)%elem_of_holders. by simplify_eq. }
  split; [done|]. split; [done|].
  split. { intros l c cd _ _ Hc Hcd. by rewrite Hframe. }
  intros h0 nd0 Hn0 Hnone.
  exists {| items := []; adoptItem := Some (HookSetParent n);
            freeItem := Some HookDestroy |}.
  split; [|done].
  unfold RenderNode.childNodes.
  erewrite run_bind_ret by (by eapply run_get_node).
  rewrite Hnone.
  erewrite run_bind_ret by (by eapply run_update_node).
  by rewrite run_mret.
Qed.

Lemma destroy_releases_witness :
  ∃ h' nd',
    RenderNode.destroy 0 Scenario.family = (Ret tt, h') ∧
    nodes h' !! 0 = Some nd' ∧
    _element nd' = None ∧ parent nd' = None ∧ postNode nd' = None ∧
    lookup_index h' 0 7 = None ∧
    nodes h' !! 1 = Some Scenario.child_node ∧
    lookup_index h' 0 8 = Some 1.
Proof.
  destruct (destroy_releases Scenario.family 0
              Scenario.parent_node)
    as (h' & nd' & Hrun & Hn' & He & Hp & Hpn & Hidx & _ & _ & _ & Hch & _).
  - reflexivity.
  - apply parent_node_ok.
  - exists h', nd'. repeat (split; [assumption|]).
    split; [by apply Hidx|].
    split; [eapply Hch; [reflexivity|by left|done|reflexivity]|].
    unfold RenderNode.destroy in Hrun. vm_compute in Hrun.
    by simplify_eq.
Defined.

(** C10. [destroy] on a well-formed node returns and also sets its
    [renderTree] reference to null; and on every node whose [renderTree]
    is null, in particular a destroyed one, assigning a non-null element
    throws a TypeError (the null dereference) and leaves every element
    index as it was: the node is registered nowhere anew. *)
Theorem destroy_is_terminal h n nd :
  nodes h !! n = Some nd →
  node_ok h nd →
  ∃ h1 nd1,
    RenderNode.destroy n h = (Ret tt, h1) ∧
    nodes h1 !! n = Some nd1 ∧
    renderTree nd1 = None ∧
    (∀ E, ∃ h2, RenderNode.set_element n (Some E) h1 = (Throw TypeError, h2) ∧
                trees h2 = trees h1 ∧
                ∀ t F, lookup_index h2 t F = lookup_index h1 t F) ∧
    (∀ h3 nd3 E, nodes h3 !! n = Some nd3 → renderTree nd3 = None →
       ∃ h4, RenderNode.set_element n (Some E) h3 = (Throw TypeError, h4) ∧
             trees h4 = trees h3).
Proof.
  intros Hn Hok.
  assert (∀ h3 nd3 E, nodes h3 !! n = Some nd3 → renderTree nd3 = None →
     ∃ h4, RenderNode.set_element n (Some E) h3 = (Throw TypeError, h4) ∧
           trees h4 = trees h3) as Hnull.
  { intros h3 nd3 E Hn3 Ht3.
    exists (with_nodes (insert n (set__element (Some E) nd3)) h3).
    split; [|reflexivity].
    erewrite run_set_element_no_tree by done. by destruct (_element nd3). }
  destruct (run_destroy_ok h n nd Hn Hok) as (h1 & Hrun & Hnodes & Hlk).
  assert (nodes h1 !! n = Some (destroyed nd)) as Hn1
    by (rewrite Hnodes; apply lookup_insert_eq).
  exists h1, (destroyed nd). split; [done|]. split; [done|]. split; [done|].
  split; [|done]. intros E.
  destruct (Hnull h1 (destroyed nd) E Hn1 eq_refl) as (h2 & Hset & Htrees).
  exists h2. split; [done|]. split; [done|].
  intros t F. unfold lookup_index. by rewrite Htrees.
Qed.

Lemma destroy_is_terminal_witness :
  ∃ h1 nd1,
    RenderNode.destroy 0 Scenario.family = (Ret tt, h1) ∧
    nodes h1 !! 0 = Some nd1 ∧
    renderTree nd1 = None ∧
    ∃ h2, RenderNode.set_element 0 (Some 9) h1 = (Throw TypeError, h2) ∧
          trees h2 = trees h1 ∧
          lookup_index h2 0 9 = None.
Proof.
  destruct (destroy_is_terminal Scenario.family 0
              Scenario.parent_node)
    as (h1 & nd1 & Hrun & Hn1 & Ht1 & Hset & _).
  - reflexivity.
  - apply parent_node_ok.
  - exists h1, nd1. repeat (split; [assumption|]).
    destruct (Hset 9) as (h2 & Hthrow & Htrees & Hlk).
    exists h2. split; [assumption|]. split; [assumption|].
    rewrite Hlk. unfold RenderNode.destroy in Hrun. vm_compute in Hrun.
    by simplify_eq.
Defined.

(** ** Attachment and the reparse policy *)

(** C7, as the code has it. For a node [n] of the store, [isAttached]
    fails with an assertion error exactly when the [element] of [n] is
    null. When the [element] is [E] and [n] has its render tree, the call
    returns, leaves the store as it is, and answers whether [E] is the
    root DOM element of that tree or a descendant of it; this is the
    case of every well-formed node. When the [element] is [E] and the
    [renderTree] of [n] is null, the call throws a TypeError and leaves
    the store as it is. *)
Theorem isAttached_spec (contains : Element → Element → bool) h n nd :
  nodes h !! n = Some nd →
  ((∃ msg, (RenderNode.isAttached contains n h).1
             = Throw (AssertionError msg)) ↔ _element nd = None) ∧
  (∀ E t tr,
     _element nd = Some E → renderTree nd = Some t → trees h !! t = Some tr →
     RenderNode.isAttached contains n h
       = (Ret (RenderNode.containsNode contains (rootElement tr) E), h)) ∧
  (∀ E, _element nd = Some E → renderTree nd = None →
     RenderNode.isAttached contains n h = (Throw TypeError, h)) ∧
  (node_ok h nd →
   ∀ E, _element nd = Some E →
     ∃ t tr, renderTree nd = Some t ∧ trees h !! t = Some tr ∧
             RenderNode.isAttached contains n h
               = (Ret (RenderNode.containsNode contains (rootElement tr) E), h)).
Proof.
  intros Hn.
  assert (RenderNode.isAttached contains n h =
    match _element nd with
    | None =>
        (Throw (AssertionError
           "Cannot check if a renderNode is attached without an element."), h)
    | Some E =>
        match renderTree nd with
        | None => (Throw TypeError, h)
        | Some t =>
            match trees h !! t with
            | None => (Dangling, h)
            | Some tr =>
                (Ret (RenderNode.containsNode contains (rootElement tr) E), h)
            end
        end
    end) as ->.
  { unfold RenderNode.isAttached, RenderNode.element,
      RenderNode.get_renderTree, RenderTree.get_rootElement, assert,
      get_node, get_tree, deref, throw, mbind, M_bind, mret, M_ret.
    rewrite Hn. simpl. destruct (_element nd) as [E|] eqn:He; simpl; [|done].
    rewrite Hn. simpl. destruct (renderTree nd) as [t|]; simpl; [|done].
    destruct (trees h !! t); simpl; [|done].
    rewrite Hn. simpl. by rewrite He. }
  split; [|split; [|split]].
  - destruct (_element nd) as [E|].
    + split; [|done]. intros [msg Hmsg]. exfalso.
      destruct (renderTree nd) as [t|]; [|done].
      by destruct (trees h !! t).
    + split; [done|]. intros _. by eexists.
  - intros E t tr -> -> Htr. by rewrite Htr.
  - by intros E -> ->.
  - intros Hok E He. unfold node_ok in Hok. rewrite He in *.
    destruct (renderTree nd) as [t|]; [|done].
    destruct Hok as [tr Htr]. exists t, tr. by rewrite Htr.
Qed.

Lemma isAttached_spec_witness :
  ((∃ msg, (RenderNode.isAttached Scenario.contains 0 Scenario.page).1
             = Throw (AssertionError msg)) ↔
   _element Scenario.rendered_card = None) ∧
  RenderNode.isAttached Scenario.contains 0 Scenario.page
    = (Ret (RenderNode.containsNode Scenario.contains 100 7),
       Scenario.page) ∧
  ∃ t tr, renderTree Scenario.rendered_card = Some t ∧
          trees Scenario.page !! t = Some tr ∧
          RenderNode.isAttached Scenario.contains 0 Scenario.page
            = (Ret (RenderNode.containsNode Scenario.contains
                      (rootElement tr) 7), Scenario.page).
Proof.
  destruct (isAttached_spec Scenario.contains Scenario.page 0
              Scenario.rendered_card) as (Hiff & Htree & _ & Hok).
  - reflexivity.
  - split; [exact Hiff|]. split.
    + apply (Htree 7 0 (mkRenderTree 100 {[ 7 := 0; 8 := 1 ]}));
        reflexivity.
    + apply Hok; [by eexists|reflexivity].
Defined.

(** C7 as stated fails: the setter stores the element before it reaches
    for the render tree, so a node constructed without render tree, and a
    destroyed node, hold the element assigned to them although the
    assignment throws. Their [element] is then non-null, and yet
    [isAttached] does not return: it throws a TypeError. *)
Lemma isAttached_without_tree_throws :
  let made := RenderNode.new None None Scenario.empty_tree in
  let assigned := RenderNode.set_element 0 (Some 7) made.2 in
  let gone := RenderNode.destroy 1 Scenario.page in
  let revived := RenderNode.set_element 1 (Some 8) gone.2 in
  made.1 = Ret 0 ∧
  assigned.1 = Throw TypeError ∧
  RenderNode.element 0 assigned.2 = (Ret (Some 7), assigned.2) ∧
  RenderNode.isAttached Scenario.contains 0 assigned.2
    = (Throw TypeError, assigned.2) ∧
  (RenderNode.isAttached Scenario.contains 0 assigned.2).1 ≠ Ret true ∧
  (RenderNode.isAttached Scenario.contains 0 assigned.2).1 ≠ Ret false ∧
  gone.1 = Ret tt ∧
  revived.1 = Throw TypeError ∧
  RenderNode.element 1 revived.2 = (Ret (Some 8), revived.2) ∧
  RenderNode.isAttached Scenario.contains 1 revived.2
    = (Throw TypeError, revived.2) ∧
  (RenderNode.isAttached Scenario.contains 1 revived.2).1 ≠ Ret true ∧
  (RenderNode.isAttached Scenario.contains 1 revived.2).1 ≠ Ret false.
Proof.
  intros made assigned gone revived.
  repeat split; try reflexivity; by vm_compute.
Qed.

(** C8, as the code has it. For a node [n] of the store and a DOM node
    [d], [reparsesMutationOfChildNode] never changes the store; it
    returns false exactly when the post node of [n] is a card section
    whose card node owns an element that contains [d]; it returns true
    when the post node is not a card section, and when it is a card
    section whose card node owns an element that does not contain [d];
    and it throws a TypeError when the post node is null, or is a card
    section while the [cardNode] slot or its element is null. *)
Theorem reparsesMutationOfChildNode_spec
    (contains : Element → Element → bool) h n nd d :
  nodes h !! n = Some nd →
  let r := RenderNode.reparsesMutationOfChildNode contains n d h in
  r.2 = h ∧
  (r.1 = Ret false ↔
     ∃ pn cn ce, postNode nd = Some pn ∧ isCardSection pn = true ∧
                 cardNode nd = Some cn ∧ card_element cn = Some ce ∧
                 contains ce d = true) ∧
  (∀ pn, postNode nd = Some pn → isCardSection pn = false →
         r.1 = Ret true) ∧
  (∀ pn cn ce, postNode nd = Some pn → isCardSection pn = true →
               cardNode nd = Some cn → card_element cn = Some ce →
               contains ce d = false → r.1 = Ret true) ∧
  (postNode nd = None → r.1 = Throw TypeError) ∧
  (∀ pn, postNode nd = Some pn → isCardSection pn = true →
         cardNode nd = None ∨
           (∃ cn, cardNode nd = Some cn ∧ card_element cn = None) →
         r.1 = Throw TypeError).
Proof.
  intros Hn r.
  assert (r = (match postNode nd with
               | None => Throw TypeError
               | Some pn =>
                   if isCardSection pn then
                     match cardNode nd with
                     | None => Throw TypeError
                     | Some cn =>
                         match card_element cn with
                         | None => Throw TypeError
                         | Some ce => Ret (negb (contains ce d))
                         end
                     end
                   else Ret true
               end, h)) as ->.
  { unfold r, RenderNode.reparsesMutationOfChildNode.
    erewrite run_bind_ret by (by eapply run_get_node).
    destruct (postNode nd) as [pn|]; [|done]. simpl.
    erewrite run_bind_ret by apply run_mret.
    destruct (isCardSection pn); [|done].
    destruct (cardNode nd) as [cn|]; [|done]. simpl.
    erewrite run_bind_ret by apply run_mret.
    destruct (card_element cn) as [ce|]; [|done]. simpl.
    by erewrite run_bind_ret by apply run_mret. }
  simpl. split; [done|]. split.
  { split.
    - destruct (postNode nd) as [pn|]; [|done].
      destruct (isCardSection pn) eqn:Hcs; [|done].
      destruct (cardNode nd) as [cn|]; [|done].
      destruct (card_element cn) as [ce|] eqn:Hce; [|done].
      intros [= Hc%negb_false_iff]. by exists pn, cn, ce.
    - intros (pn & cn & ce & -> & -> & -> & -> & ->). done. }
  split. { by intros pn -> ->. }
  split. { by intros pn cn ce -> -> -> -> ->. }
  split. { by intros ->. }
  intros pn -> -> [->|(cn & -> & ->)]; done.
Qed.

Lemma reparsesMutationOfChildNode_spec_witness :
  let r := RenderNode.reparsesMutationOfChildNode Scenario.contains
             0 51 Scenario.page in
  r = (Ret false, Scenario.page) ∧
  RenderNode.reparsesMutationOfChildNode Scenario.contains
    0 8 Scenario.page = (Ret true, Scenario.page) ∧
  RenderNode.reparsesMutationOfChildNode Scenario.contains
    1 51 Scenario.page = (Ret true, Scenario.page).
Proof.
  intros r.
  destruct (reparsesMutationOfChildNode_spec Scenario.contains
              Scenario.page 0 Scenario.rendered_card 51)
    as (Hh & Hfalse & _); [reflexivity|].
  destruct (reparsesMutationOfChildNode_spec Scenario.contains
              Scenario.page 0 Scenario.rendered_card 8)
    as (Hh8 & _ & _ & Htrue8 & _); [reflexivity|].
  destruct (reparsesMutationOfChildNode_spec Scenario.contains
              Scenario.page 1 Scenario.rendered_text 51)
    as (Hh1 & _ & Htrue1 & _); [reflexivity|].
  split; [|split].
  - apply injective_projections; [|exact Hh]. apply Hfalse.
    by exists Scenario.card, (mkCardNode (Some 50)), 50.
  - apply injective_projections; [|exact Hh8].
    by apply (Htrue8 Scenario.card (mkCardNode (Some 50)) 50).
  - apply injective_projections; [|exact Hh1].
    by apply (Htrue1 Scenario.text).
Defined.

(** C8 as stated fails: a render node constructed for a card section has
    a null [cardNode], so no card element contains the DOM node 51, and
    yet the call does not return true: it throws a TypeError. The same
    happens on a destroyed node, whose post node is null. *)
Lemma unrendered_card_reparse_throws :
  let made := RenderNode.new (Some Scenario.card) (Some 0)
                Scenario.empty_tree in
  let gone := RenderNode.destroy 1 Scenario.page in
  made.1 = Ret 0 ∧
  (postNode <$> nodes made.2 !! 0) = Some (Some Scenario.card) ∧
  (cardNode <$> nodes made.2 !! 0) = Some None ∧
  RenderNode.reparsesMutationOfChildNode Scenario.contains 0 51 made.2
    = (Throw TypeError, made.2) ∧
  (RenderNode.reparsesMutationOfChildNode Scenario.contains 0 51 made.2).1
    ≠ Ret true ∧
  gone.1 = Ret tt ∧
  (postNode <$> nodes gone.2 !! 1) = Some None ∧
  RenderNode.reparsesMutationOfChildNode Scenario.contains 1 51 gone.2
    = (Throw TypeError, gone.2).
Proof.
  intros made gone. repeat split; try reflexivity. by vm_compute.
Qed.

(** ** Construction *)

(** C9. The constructor returns a reference that the store did not
    hold, bound to a node that is dirty, not removed, without element
    (so [isRendered] answers false), without parent, and with every
    specialised slot null; it changes no other node and no render tree. *)
Theorem new_node_is_dirty_and_unrendered pn t h :
  ∃ n h',
    RenderNode.new pn t h = (Ret n, h') ∧
    nodes h !! n = None ∧
    nodes h' !! n = Some (RenderNode.init pn t) ∧
    (let nd := RenderNode.init pn t in
     isDirty nd = true ∧ isRemoved nd = false ∧
     _element nd = None ∧ parent nd = None ∧
     markupElement nd = None ∧ headTextNode nd = None ∧
     tailTextNode nd = None ∧ atomNode nd = None ∧ cardNode nd = None ∧
     _childNodes nd = None ∧ postNode nd = pn ∧ renderTree nd = t) ∧
    RenderNode.isRendered n h' = (Ret false, h') ∧
    n ∈ dirtySet h' ∧
    (∀ m, m ≠ n → nodes h' !! m = nodes h !! m) ∧
    trees h' = trees h.
Proof.
  set (n := fresh (dom (nodes h))).
  exists n, (with_nodes (insert n (RenderNode.init pn t)) h).
  assert (nodes h !! n = None) as Hfresh
    by (apply not_elem_of_dom, is_fresh).
  split; [done|]. split; [done|].
  split; [simpl; apply lookup_insert_eq|].
  split; [done|].
  split.
  { unfold RenderNode.isRendered, RenderNode.element.
    erewrite (run_bind_ret _ _ _ None); [reflexivity|].
    erewrite run_bind_ret
      by (eapply run_get_node; simpl; apply lookup_insert_eq).
    by rewrite run_mret. }
  split.
  { apply elem_of_dirtySet. exists (RenderNode.init pn t).
    split; [|reflexivity]. simpl. apply lookup_insert_eq. }
  split; [|done]. intros m Hm. simpl. by rewrite lookup_insert_ne.
Qed.

(** ** Invariants of call sequences *)

Lemma post_bind {A B} (m : M A) (k : A → M B) (P Q R : Heap → Prop) :
  post P m Q → (∀ a, post Q (k a) R) → (∀ h, Q h → R h) →
  post P (m ≫= k) R.
Proof.
  intros Hm Hk HQR h HP. specialize (Hm h HP). unfold mbind, M_bind.
  destruct (m h) as [[a| | |] h1]; simpl in *; auto. by apply Hk.
Qed.

Lemma post_bind_same {A B} (m : M A) (k : A → M B) (P : Heap → Prop) :
  post P m P → (∀ a, post P (k a) P) → post P (m ≫= k) P.
Proof. intros Hm Hk. by eapply post_bind. Qed.

Lemma post_mret {A} (a : A) (P : Heap → Prop) : post P (mret a) P.
Proof. by intros h HP. Qed.

Lemma post_throw {A} e (P : Heap → Prop) : post P (@throw A e) P.
Proof. by intros h HP. Qed.

Lemma post_get_node n (P : Heap → Prop) : post P (get_node n) P.
Proof. intros h HP. unfold get_node. by destruct (nodes h !! n). Qed.

Lemma post_update_node n f (P Q : Heap → Prop) :
  (∀ h, P h → Q h) →
  (∀ h nd, P h → nodes h !! n = Some nd →
           Q (with_nodes (insert n (f nd)) h)) →
  post P (update_node n f) Q.
Proof.
  intros HPQ Hf h HP. unfold update_node.
  destruct (nodes h !! n) as [nd|] eqn:Hn; simpl; auto.
Qed.

Lemma run_bind_dangling {A B} (m : M A) (k : A → M B) h h' :
  m h = (Dangling, h') → (m ≫= k) h = (Dangling, h').
Proof. intros Hm. unfold mbind, M_bind. by rewrite Hm. Qed.

(** The store that the setter leaves, however it ends. *)
Lemma set_element_state h n nd new :
  nodes h !! n = Some nd →
  (RenderNode.set_element n new h).2 =
    match renderTree nd with
    | Some t =>
        match trees h !! t with
        | Some tr => after_set_element h n nd new t tr
        | None => with_nodes (insert n (set__element new nd)) h
        end
    | None => with_nodes (insert n (set__element new nd)) h
    end.
Proof.
  intros Hn. destruct (renderTree nd) as [t|] eqn:Ht.
  - destruct (trees h !! t) as [tr|] eqn:Htr.
    + by erewrite run_set_element.
    + unfold RenderNode.set_element,
        RenderTree.removeElementRenderNode, RenderTree.setElementRenderNode.
      erewrite run_bind_ret by (by eapply run_get_node).
      erewrite run_bind_ret by (by eapply run_update_node).
      set (h1 := with_nodes (insert n (set__element new nd)) h).
      assert (∀ f, (rt ← RenderNode.get_renderTree n; t0 ← deref rt;
                    update_tree t0 f) h1 = (Dangling, h1)) as Hdang.
      { intros f.
        erewrite run_bind_ret
          by (eapply run_get_renderTree; simpl; apply lookup_insert_eq).
        simpl. rewrite Ht. erewrite run_bind_ret by (by apply run_deref).
        unfold update_tree. simpl. by rewrite Htr. }
      destruct (_element nd) as [c|], new as [e|]; simpl.
      * by erewrite run_bind_dangling by apply Hdang.
      * by erewrite run_bind_dangling by apply Hdang.
      * erewrite run_bind_ret by apply run_mret. by rewrite Hdang.
      * done.
  - by erewrite run_set_element_no_tree.
Qed.

Lemma index_sound_insert_node h n nd nd' :
  nodes h !! n = Some nd →
  (∀ t E, renderTree nd' = Some t → _element nd' = Some E →
          is_Some (trees h !! t) →
          renderTree nd = Some t ∧ _element nd = Some E) →
  (∀ t tr E, trees h !! t = Some tr → elements tr !! E = Some n →
             renderTree nd' = Some t ∧ _element nd' = Some E) →
  index_sound h → index_sound (with_nodes (insert n nd') h).
Proof.
  intros Hn _ Hkeep Hs t tr E m Ht HE. simpl in *.
  destruct (decide (m = n)) as [->|Hne].
  - rewrite lookup_insert_eq. destruct (Hkeep _ _ _ Ht HE). eauto.
  - rewrite lookup_insert_ne by done. eauto.
Qed.

Lemma index_sound_update h n nd f :
  nodes h !! n = Some nd →
  renderTree (f nd) = renderTree nd → _element (f nd) = _element nd →
  index_sound h → index_sound (with_nodes (insert n (f nd)) h).
Proof.
  intros Hn Ht He Hs. eapply index_sound_insert_node; [done| |  |done].
  - intros t E. rewrite Ht, He. auto.
  - intros t tr E Htr HE. destruct (Hs _ _ _ _ Htr HE) as (nd0 & ? & ? & ?).
    simplify_eq. by rewrite Ht, He.
Qed.

Lemma index_sound_unregistered h n nd nd' :
  nodes h !! n = Some nd →
  (∀ t, renderTree nd = Some t → trees h !! t = None) →
  index_sound h → index_sound (with_nodes (insert n nd') h).
Proof.
  intros Hn Hno Hs t tr E m Ht HE. simpl in *.
  destruct (Hs _ _ _ _ Ht HE) as (nd0 & Hm & He0 & Ht0).
  destruct (decide (m = n)) as [->|Hmn].
  - simplify_eq. specialize (Hno _ Ht0). congruence.
  - rewrite lookup_insert_ne by done. eauto.
Qed.

Lemma index_sound_set_element n new :
  post index_sound (RenderNode.set_element n new)
    (λ h, index_sound h ∧
          ∀ nd, nodes h !! n = Some nd → _element nd = new).
Proof.
  intros h Hs. destruct (nodes h !! n) as [nd|] eqn:Hn; cycle 1.
  { unfold RenderNode.set_element, mbind, M_bind, get_node.
    rewrite Hn. simpl. split; [done|]. intros nd. by rewrite Hn. }
  rewrite (set_element_state _ _ _ _ Hn).
  assert (∀ h', nodes h' = <[n := set__element new nd]> (nodes h) →
                ∀ nd0, nodes h' !! n = Some nd0 → _element nd0 = new) as Hnew.
  { intros h' -> nd0. rewrite lookup_insert_eq. by intros [= <-]. }
  destruct (renderTree nd) as [t|] eqn:Ht.
  - destruct (trees h !! t) as [tr|] eqn:Htr.
    + split; [|by apply Hnew].
      intros t' tr' E m Ht' HE. simpl in *.
      destruct (decide (t' = t)) as [->|Hne].
      * rewrite lookup_insert_eq in Ht'. simplify_eq. simpl in HE.
        rewrite lookup_reindex in HE.
        destruct (decide (new = Some E)) as [->|Hnew'].
        { simplify_eq. rewrite lookup_insert_eq. eauto. }
        destruct (decide (_element nd = Some E)) as [?|Hold]; [done|].
        destruct (Hs _ _ _ _ Htr HE) as (nd0 & Hm & He0 & Ht0).
        destruct (decide (m = n)) as [->|Hmn]; [by simplify_eq|].
        rewrite lookup_insert_ne by done. eauto.
      * rewrite lookup_insert_ne in Ht' by done.
        destruct (Hs _ _ _ _ Ht' HE) as (nd0 & Hm & He0 & Ht0).
        destruct (decide (m = n)) as [->|Hmn]; [simplify_eq|].
        rewrite lookup_insert_ne by done. eauto.
    + split; [|by apply Hnew].
      eapply index_sound_unregistered; [done| |done]. congruence.
  - split; [|by apply Hnew].
    eapply index_sound_unregistered; [done| |done]. congruence.
Qed.

Lemma index_sound_update_node n f :
  (∀ nd, renderTree (f nd) = renderTree nd ∧ _element (f nd) = _element nd) →
  post index_sound (update_node n f) index_sound.
Proof.
  intros Hf. apply post_update_node; [done|]. intros h nd Hs Hn.
  destruct (Hf nd). by apply index_sound_update.
Qed.

Lemma index_sound_markDirty fuel : ∀ n,
  post index_sound (RenderNode.markDirty fuel n) index_sound.
Proof.
  induction fuel as [|fuel IH]; intros n; [by intros h|]. simpl.
  apply post_bind_same; [by apply index_sound_update_node|]. intros _.
  apply post_bind_same; [apply post_get_node|]. intros nd.
  destruct (parent nd); [apply IH|apply post_mret].
Qed.

Lemma index_sound_scheduleForRemoval fuel n :
  post index_sound (RenderNode.scheduleForRemoval fuel n) index_sound.
Proof.
  apply post_bind_same; [by apply index_sound_update_node|]. intros _.
  apply post_bind_same; [apply post_get_node|]. intros nd.
  destruct (parent nd); [apply index_sound_markDirty|apply post_mret].
Qed.

Lemma index_sound_destroy n :
  post index_sound (RenderNode.destroy n) index_sound.
Proof.
  set (Q := λ h, index_sound h ∧
                 ∀ nd, nodes h !! n = Some nd → _element nd = None).
  assert (∀ f, (∀ nd, renderTree (f nd) = renderTree nd ∧
                      _element (f nd) = _element nd) →
               post Q (update_node n f) Q) as Hkeep.
  { intros f Hf. apply post_update_node; [done|]. intros h nd [Hs He] Hn.
    destruct (Hf nd) as [Hft Hfe]. split; [by apply index_sound_update|].
    simpl. intros nd0. rewrite lookup_insert_eq. intros [= <-].
    rewrite Hfe. by apply He. }
  eapply post_bind; [apply index_sound_set_element| |by intros h []].
  intros _. eapply (post_bind _ _ Q Q); [by apply Hkeep| |by intros h []].
  intros _. eapply (post_bind _ _ Q Q); [by apply Hkeep| |by intros h []].
  intros _. apply post_update_node; [by intros h []|].
  intros h nd [Hs He] Hn. eapply index_sound_insert_node; [done| | |done].
  - done.
  - intros t tr E Htr HE. destruct (Hs _ _ _ _ Htr HE) as (nd0 & ? & ? & ?).
    simplify_eq. specialize (He _ Hn). congruence.
Qed.

Lemma index_sound_new pn t :
  post index_sound (RenderNode.new pn t) index_sound.
Proof.
  intros h Hs t' tr E m Ht HE. simpl in *.
  destruct (Hs _ _ _ _ Ht HE) as (nd0 & Hm & He0 & Ht0).
  rewrite lookup_insert_ne; [eauto|]. intros <-.
  by rewrite (not_elem_of_dom_1 _ _ (is_fresh (dom (nodes h)))) in Hm.
Qed.

Lemma index_sound_childNodes n :
  post index_sound (RenderNode.childNodes n) index_sound.
Proof.
  apply post_bind_same; [apply post_get_node|]. intros nd.
  destruct (_childNodes nd); [apply post_mret|].
  apply post_bind_same; [by apply index_sound_update_node|].
  intros _. apply post_mret.
Qed.

Lemma index_sound_run_call fuel c :
  post index_sound (run_call fuel c) index_sound.
Proof.
  destruct c; simpl.
  - apply post_bind_same; [apply index_sound_new|]. intros _. apply post_mret.
  - intros h Hs. by apply index_sound_set_element.
  - apply index_sound_markDirty.
  - by apply index_sound_update_node.
  - apply index_sound_scheduleForRemoval.
  - apply index_sound_destroy.
  - apply post_bind_same; [apply index_sound_childNodes|].
    intros _. apply post_mret.
Qed.

Lemma index_sound_empty h :
  map_Forall (λ _ tr, elements tr = ∅) (trees h) → index_sound h.
Proof.
  intros Hall t tr E n Ht HE. specialize (Hall _ _ Ht). simpl in Hall.
  by rewrite Hall in HE.
Qed.

(** X1. Whatever calls are made on render nodes, and however the
    sequence ends (it returns, a call throws, or a recursion does not
    end), no element index ever holds a stale entry: an element that an
    index maps to a node is the element of that node, and the node
    belongs to the tree of that index. *)
Theorem index_sound_invariant h fuel cs :
  index_sound h →
  index_sound (run_calls fuel cs h).2 ∧
  ∀ t E n, lookup_index (run_calls fuel cs h).2 t E = Some n →
           n ∈ holders (run_calls fuel cs h).2 E.
Proof.
  intros Hs.
  assert (index_sound (run_calls fuel cs h).2) as Hs'.
  { revert h Hs. induction cs as [|c cs IH]; intros h Hs; [done|]. simpl.
    revert h Hs.
    change (post index_sound (run_call fuel c ≫= λ _, run_calls fuel cs)
              index_sound).
    apply post_bind_same; [apply index_sound_run_call|]. intros _ h Hs.
    by apply IH. }
  split; [done|]. intros t E n. unfold lookup_index.
  destruct (trees _ !! t) as [tr|] eqn:Ht; [|done]. intros HE.
  destruct (Hs' _ _ _ _ Ht HE) as (nd & ? & ? & _).
  apply elem_of_holders. eauto.
Qed.

Lemma index_sound_invariant_witness :
  let h' := (run_calls 3 [CallSetElement 0 (Some 7); CallSetElement 1 (Some 7);
                          CallDestroy 1; CallSetElement 1 (Some 9);
                          CallMarkDirty 0] Scenario.two_nodes).2 in
  index_sound h' ∧
  ∀ t E n, lookup_index h' t E = Some n → n ∈ holders h' E.
Proof.
  apply index_sound_invariant, index_sound_empty.
  apply (bool_decide_unpack _). by vm_compute.
Defined.

(** The calls never add or drop a render tree. *)
Lemma has_tree_update_node t n f :
  post (λ h, is_Some (trees h !! t)) (update_node n f)
       (λ h, is_Some (trees h !! t)).
Proof. by apply post_update_node. Qed.

Lemma has_tree_update_tree t t' f :
  post (λ h, is_Some (trees h !! t)) (update_tree t' f)
       (λ h, is_Some (trees h !! t)).
Proof.
  intros h Ht. unfold update_tree.
  destruct (trees h !! t') eqn:Ht'; simpl; [|done].
  rewrite lookup_insert_is_Some'. by right.
Qed.

Lemma post_deref {A} (o : option A) (P : Heap → Prop) : post P (deref o) P.
Proof. destruct o; [apply post_mret|apply post_throw]. Qed.

Lemma has_tree_set_element t n new :
  post (λ h, is_Some (trees h !! t)) (RenderNode.set_element n new)
       (λ h, is_Some (trees h !! t)).
Proof.
  assert (∀ (k : tree_ref → M unit),
    (∀ t0, post (λ h, is_Some (trees h !! t)) (k t0)
                (λ h, is_Some (trees h !! t))) →
    post (λ h, is_Some (trees h !! t))
      (rt ← RenderNode.get_renderTree n; t0 ← deref rt; k t0)
      (λ h, is_Some (trees h !! t))) as Htree.
  { intros k Hk. apply post_bind_same.
    - apply post_bind_same; [apply post_get_node|]. intros. apply post_mret.
    - intros rt. apply post_bind_same; [apply post_deref|]. apply Hk. }
  apply post_bind_same; [apply post_get_node|]. intros nd.
  apply post_bind_same; [apply has_tree_update_node|]. intros _.
  apply post_bind_same.
  - destruct (_element nd); [|apply post_mret].
    apply Htree. intros. apply has_tree_update_tree.
  - intros _. destruct new; [|apply post_mret].
    apply Htree. intros. apply has_tree_update_tree.
Qed.

Lemma has_tree_markDirty t fuel : ∀ n,
  post (λ h, is_Some (trees h !! t)) (RenderNode.markDirty fuel n)
       (λ h, is_Some (trees h !! t)).
Proof.
  induction fuel as [|fuel IH]; intros n; [by intros h|]. simpl.
  apply post_bind_same; [apply has_tree_update_node|]. intros _.
  apply post_bind_same; [apply post_get_node|]. intros nd.
  destruct (parent nd); [apply IH|apply post_mret].
Qed.

Lemma has_tree_run_call t fuel c :
  post (λ h, is_Some (trees h !! t)) (run_call fuel c)
       (λ h, is_Some (trees h !! t)).
Proof.
  destruct c; simpl.
  - apply post_bind_same; [by intros h|]. intros _. apply post_mret.
  - apply has_tree_set_element.
  - apply has_tree_markDirty.
  - apply has_tree_update_node.
  - apply post_bind_same; [apply has_tree_update_node|]. intros _.
    apply post_bind_same; [apply post_get_node|]. intros nd.
    destruct (parent nd); [apply has_tree_markDirty|apply post_mret].
  - apply post_bind_same; [apply has_tree_set_element|]. intros _.
    apply post_bind_same; [apply has_tree_update_node|]. intros _.
    apply post_bind_same; [apply has_tree_update_node|]. intros _.
    apply has_tree_update_node.
  - apply post_bind_same; [|intros; apply post_mret].
    apply post_bind_same; [apply post_get_node|]. intros nd.
    destruct (_childNodes nd); [apply post_mret|].
    apply post_bind_same; [apply has_tree_update_node|].
    intros. apply post_mret.
Qed.

Lemma bind_ret_inv {A B} (m : M A) (k : A → M B) h b h' :
  (m ≫= k) h = (Ret b, h') →
  ∃ a h1, m h = (Ret a, h1) ∧ k a h1 = (Ret b, h').
Proof.
  unfold mbind, M_bind. destruct (m h) as [[a| | |] h1]; [eauto|done..].
Qed.

Lemma heap_ok_childNodes n h l h' :
  heap_ok h → RenderNode.childNodes n h = (Ret l, h') → heap_ok h'.
Proof.
  intros Hok Hrun. unfold RenderNode.childNodes in Hrun.
  apply bind_ret_inv in Hrun as (nd & h1 & Hget & Hrun).
  unfold get_node in Hget. destruct (nodes h !! n); simplify_eq.
  destruct (_childNodes nd); [rewrite run_mret in Hrun; by simplify_eq|].
  apply bind_ret_inv in Hrun as ([] & h2 & Hupd & Hrun).
  apply heap_ok_update_node in Hupd; [|done..].
  rewrite run_mret in Hrun. by simplify_eq.
Qed.

Lemma heap_ok_run_call fuel c h h' :
  heap_ok h → call_ok h c → run_call fuel c h = (Ret tt, h') → heap_ok h'.
Proof.
  intros Hok Hc Hrun. destruct c; simpl in *.
  - apply bind_ret_inv in Hrun as (n & h1 & Hnew & Hrun).
    rewrite run_mret in Hrun. injection Hrun as <-.
    replace h1 with (RenderNode.new postNode0 renderTree0 h).2
      by (by rewrite Hnew).
    apply heap_ok_new; [done|]. by intros t ->.
  - by eapply heap_ok_set_element.
  - by eapply heap_ok_markDirty.
  - by eapply heap_ok_markClean.
  - by eapply heap_ok_scheduleForRemoval.
  - by eapply heap_ok_destroy.
  - apply bind_ret_inv in Hrun as (l & h1 & Hget & Hrun).
    rewrite run_mret in Hrun. injection Hrun as <-.
    by eapply heap_ok_childNodes.
Qed.

Lemma two_nodes_ok : heap_ok Scenario.two_nodes.
Proof.
  change (heap_ok (RenderNode.new None (Some 0)
            (RenderNode.new None (Some 0) Scenario.empty_tree).2).2).
  apply heap_ok_new; [apply heap_ok_new; [apply heap_ok_empty|]|];
    intros t [= <-]; by eexists.
Qed.

(** X2. From a well-formed store (every node that holds an element has
    its render tree, and no node names a tree that the store lacks),
    every sequence of calls that returns leaves a well-formed store;
    constructor calls must name a tree of the store, or none. *)
Theorem heap_ok_invariant fuel cs : ∀ h h',
  heap_ok h →
  Forall (call_ok h) cs →
  run_calls fuel cs h = (Ret tt, h') →
  heap_ok h'.
Proof.
  induction cs as [|c cs IH]; intros h h' Hok Hcs Hrun.
  { by injection Hrun as <-. }
  apply Forall_cons in Hcs as [Hc Hcs]. simpl in Hrun.
  apply bind_ret_inv in Hrun as ([] & h1 & Hcall & Hrun).
  eapply (IH h1); [by eapply heap_ok_run_call| |done].
  eapply Forall_impl; [done|]. intros c' Hc'.
  destruct c' as [pn [t|]| | | | | |]; try done. simpl in *.
  pose proof (has_tree_run_call t fuel c h Hc') as Ht.
  by rewrite Hcall in Ht.
Qed.

Lemma heap_ok_invariant_witness :
  heap_ok (run_calls 3 [CallNew None (Some 0); CallSetElement 2 (Some 7);
                        CallMarkDirty 2; CallDestroy 0;
                        CallScheduleForRemoval 1] Scenario.two_nodes).2.
Proof.
  apply (heap_ok_invariant 3
           [CallNew None (Some 0); CallSetElement 2 (Some 7);
            CallMarkDirty 2; CallDestroy 0; CallScheduleForRemoval 1]
           Scenario.two_nodes).
  - apply two_nodes_ok.
  - repeat constructor. by eexists.
  - reflexivity.
Defined.

(** ** Edge behaviour of the setter, the child list and the recursion *)

Lemma run_element h n nd :
  nodes h !! n = Some nd → RenderNode.element n h = (Ret (_element nd), h).
Proof.
  intros Hn. unfold RenderNode.element.
  by erewrite run_bind_ret by (by eapply run_get_node).
Qed.

Lemma run_isRendered h n nd :
  nodes h !! n = Some nd →
  RenderNode.isRendered n h = (Ret (bool_decide (is_Some (_element nd))), h).
Proof.
  intros Hn. unfold RenderNode.isRendered.
  by erewrite run_bind_ret by (by eapply run_element).
Qed.

(** X3. The setter writes the private slot before it touches the render
    tree: on a node without render tree (a destroyed one), assigning an
    element throws a TypeError and changes no index, yet the node then
    reads back that element and reports itself rendered; [isAttached] on
    it throws a TypeError instead of the assertion error, and [destroy]
    throws as well. *)
Theorem set_element_without_tree
    (contains : Element → Element → bool) h n nd E :
  nodes h !! n = Some nd →
  renderTree nd = None →
  ∃ h', RenderNode.set_element n (Some E) h = (Throw TypeError, h') ∧
        trees h' = trees h ∧
        (∀ m, m ≠ n → nodes h' !! m = nodes h !! m) ∧
        RenderNode.element n h' = (Ret (Some E), h') ∧
        RenderNode.isRendered n h' = (Ret true, h') ∧
        RenderNode.isAttached contains n h' = (Throw TypeError, h') ∧
        (RenderNode.destroy n h').1 = Throw TypeError.
Proof.
  intros Hn Ht.
  exists (with_nodes (insert n (set__element (Some E) nd)) h).
  assert (nodes (with_nodes (insert n (set__element (Some E) nd)) h) !! n
          = Some (set__element (Some E) nd)) as Hn'
    by (simpl; apply lookup_insert_eq).
  split.
  { erewrite run_set_element_no_tree by done. by destruct (_element nd). }
  split; [done|].
  split; [intros m Hm; simpl; by rewrite lookup_insert_ne|].
  split; [by rewrite (run_element _ _ _ Hn')|].
  split; [by rewrite (run_isRendered _ _ _ Hn')|].
  split.
  - unfold RenderNode.isAttached, assert.
    rewrite (run_bind_ret _ _ _ _ _ (run_element _ _ _ Hn')). simpl.
    erewrite run_bind_ret by apply run_mret.
    rewrite (run_bind_ret _ _ _ _ _ (run_get_renderTree _ _ _ Hn')).
    simpl. rewrite Ht. by erewrite run_bind_throw by apply run_deref_null.
  - unfold RenderNode.destroy.
    erewrite run_bind_throw; [done|].
    by rewrite (run_set_element_no_tree _ _ _ _ Hn' Ht).
Qed.

Lemma set_element_without_tree_witness :
  let h := (RenderNode.destroy 0 Scenario.family).2 in
  ∃ h', RenderNode.set_element 0 (Some 9) h = (Throw TypeError, h') ∧
        trees h' = trees h ∧
        (∀ m, m ≠ 0 → nodes h' !! m = nodes h !! m) ∧
        RenderNode.element 0 h' = (Ret (Some 9), h') ∧
        RenderNode.isRendered 0 h' = (Ret true, h') ∧
        RenderNode.isAttached Scenario.contains 0 h' = (Throw TypeError, h') ∧
        (RenderNode.destroy 0 h').1 = Throw TypeError.
Proof.
  intros h.
  apply (set_element_without_tree Scenario.contains h 0
           (destroyed Scenario.parent_node) 9); reflexivity.
Defined.

(** X4. The [childNodes] getter creates the list once: the first call on
    a node stores an empty list whose [adoptItem] hook makes the node
    the parent of an adopted item and whose [freeItem] hook destroys a
    freed item; from then on the getter answers that same list and
    leaves the store as it is. No other node is touched. *)
Theorem childNodes_lazy_and_stable h n nd :
  nodes h !! n = Some nd →
  ∃ l h1 nd1,
    RenderNode.childNodes n h = (Ret l, h1) ∧
    nodes h1 !! n = Some nd1 ∧ _childNodes nd1 = Some l ∧
    set__childNodes (_childNodes nd) nd1 = nd ∧
    (∀ m, m ≠ n → nodes h1 !! m = nodes h !! m) ∧ trees h1 = trees h ∧
    RenderNode.childNodes n h1 = (Ret l, h1) ∧
    (∀ l0, _childNodes nd = Some l0 → l = l0 ∧ h1 = h) ∧
    (_childNodes nd = None →
     items l = [] ∧ adoptItem l = Some (HookSetParent n) ∧
     freeItem l = Some HookDestroy) ∧
    (∀ item id, nodes h1 !! item = Some id →
       RenderNode.call_hook (HookSetParent n) item h1
         = (Ret tt, with_nodes (insert item (set_parent (Some n) id)) h1)).
Proof.
  intros Hn. unfold RenderNode.childNodes.
  erewrite run_bind_ret by (by eapply run_get_node).
  destruct (_childNodes nd) as [l0|] eqn:Hl.
  - exists l0, h, nd. rewrite run_mret.
    split; [done|]. split; [done|]. split; [done|].
    split; [destruct nd; simpl in *; by subst|].
    split; [done|]. split; [done|].
    split. { erewrite run_bind_ret by (by eapply run_get_node).
             by rewrite Hl. }
    split; [by intros ? [= <-]|]. split; [done|].
    intros item id Hitem. simpl. by apply run_update_node.
  - set (l := {| items := []; adoptItem := Some (HookSetParent n);
                 freeItem := Some HookDestroy |}).
    exists l, (with_nodes (insert n (set__childNodes (Some l) nd)) h),
      (set__childNodes (Some l) nd).
    erewrite run_bind_ret by (by eapply run_update_node). rewrite run_mret.
    split; [done|]. split; [simpl; apply lookup_insert_eq|].
    split; [done|].
    split; [destruct nd; simpl in *; by subst|].
    split; [intros m Hm; simpl; by rewrite lookup_insert_ne|].
    split; [done|].
    split. { erewrite run_bind_ret
               by (eapply run_get_node; simpl; apply lookup_insert_eq).
             done. }
    split; [done|]. split; [done|].
    intros item id Hitem. simpl. by apply run_update_node.
Qed.

Lemma childNodes_lazy_and_stable_witness :
  ∃ l h1 nd1,
    RenderNode.childNodes 2 Scenario.chain3 = (Ret l, h1) ∧
    nodes h1 !! 2 = Some nd1 ∧ _childNodes nd1 = Some l ∧
    RenderNode.childNodes 2 h1 = (Ret l, h1) ∧
    items l = [] ∧ adoptItem l = Some (HookSetParent 2) ∧
    freeItem l = Some HookDestroy.
Proof.
  destruct (childNodes_lazy_and_stable Scenario.chain3 2
              (Scenario.clean_node (Some 1)))
    as (l & h1 & nd1 & Hrun & Hn1 & Hl & _ & _ & _ & Hagain & _ & Hnew & _).
  - reflexivity.
  - exists l, h1, nd1. repeat (split; [assumption|]). by apply Hnew.
Defined.

(** X5. [markDirty] has no guard against a parent chain that never
    reaches a root: when a node lies in a set of nodes that all have a
    parent in the set (a cycle), the recursion does not end, whatever
    the budget. *)
Theorem markDirty_diverges_without_root (S : gset node_ref) fuel : ∀ h n,
  (∀ m, m ∈ S → ∃ nd p, nodes h !! m = Some nd ∧ parent nd = Some p ∧ p ∈ S) →
  n ∈ S →
  (RenderNode.markDirty fuel n h).1 = OutOfFuel.
Proof.
  induction fuel as [|fuel IH]; intros h n Hclosed Hn; [done|].
  destruct (Hclosed n Hn) as (nd & p & Hnd & Hp & HpS). simpl.
  erewrite run_bind_ret by (by eapply run_update_node_alter).
  erewrite run_bind_ret; cycle 1.
  { eapply run_get_node. simpl. rewrite lookup_alter, decide_True by done.
    by rewrite Hnd. }
  simpl. rewrite Hp. apply IH; [|done].
  intros m Hm. destruct (Hclosed m Hm) as (md & q & Hmd & Hq & HqS).
  simpl. rewrite lookup_alter. case_decide; subst.
  - rewrite Hmd. simpl. eauto.
  - eauto.
Qed.

Lemma markDirty_diverges_without_root_witness :
  (RenderNode.markDirty 50 0
     (mkHeap {[ 0 := Scenario.clean_node (Some 1);
                1 := Scenario.clean_node (Some 0) ]} ∅)).1 = OutOfFuel.
Proof.
  apply (markDirty_diverges_without_root {[ 0; 1 ]}); [|set_solver].
  intros m Hm.
  apply elem_of_union in Hm as [Hm|Hm]; apply elem_of_singleton in Hm as ->.
  - exists (Scenario.clean_node (Some 1)), 1.
    split; [reflexivity|]. split; [reflexivity|set_solver].
  - exists (Scenario.clean_node (Some 0)), 0.
    split; [reflexivity|]. split; [reflexivity|set_solver].
Defined.

Lemma reindex_idem n old new (idx : gmap Element node_ref) :
  reindex n new new (reindex n old new idx) = reindex n old new idx.
Proof.
  apply map_eq; intros E. rewrite !lookup_reindex.
  repeat case_decide; done.
Qed.

(** X6. Assigning the same value to [element] twice is the same as
    assigning it once, for a node with a render tree: the second
    assignment deregisters and registers the same entry again and
    leaves the store as it is. *)
Theorem set_element_idempotent h n nd t tr new :
  nodes h !! n = Some nd →
  renderTree nd = Some t →
  trees h !! t = Some tr →
  ∃ h1, RenderNode.set_element n new h = (Ret tt, h1) ∧
        RenderNode.set_element n new h1 = (Ret tt, h1) ∧
        (RenderNode.set_element n new;; RenderNode.set_element n new) h
          = (Ret tt, h1).
Proof.
  intros Hn Ht Htr.
  assert (RenderNode.set_element n new (after_set_element h n nd new t tr)
          = (Ret tt, after_set_element h n nd new t tr)) as Hagain.
  { erewrite run_set_element;
      [|simpl; apply lookup_insert_eq|done|simpl; apply lookup_insert_eq].
    unfold after_set_element. simpl.
    by rewrite !insert_insert_eq, reindex_idem. }
  exists (after_set_element h n nd new t tr).
  split; [by apply run_set_element|]. split; [done|].
  erewrite run_bind_ret by (by apply run_set_element). done.
Qed.

Lemma set_element_idempotent_witness :
  ∃ h1, RenderNode.set_element 0 (Some 7) Scenario.family = (Ret tt, h1) ∧
        RenderNode.set_element 0 (Some 7) h1 = (Ret tt, h1) ∧
        (RenderNode.set_element 0 (Some 7);; RenderNode.set_element 0 (Some 7))
          Scenario.family = (Ret tt, h1).
Proof.
  apply (set_element_idempotent Scenario.family 0 Scenario.parent_node 0
           (mkRenderTree 100 {[ 7 := 0; 8 := 1 ]}) (Some 7)); reflexivity.
Defined.

Lemma destroyed_idem nd : destroyed (destroyed nd) = destroyed nd.
Proof. done. Qed.

(** X7. Destroying a well-formed node twice is the same as destroying it
    once: the second call returns and leaves the store as it is, so a
    node may be freed again without harm. *)
Theorem destroy_idempotent h n nd :
  nodes h !! n = Some nd →
  node_ok h nd →
  ∃ h1, RenderNode.destroy n h = (Ret tt, h1) ∧
        RenderNode.destroy n h1 = (Ret tt, h1) ∧
        (RenderNode.destroy n;; RenderNode.destroy n) h = (Ret tt, h1).
Proof.
  intros Hn Hok.
  destruct (run_destroy_ok h n nd Hn Hok) as (h1 & Hrun & Hnodes & _).
  assert (nodes h1 !! n = Some (destroyed nd)) as Hn1
    by (rewrite Hnodes; apply lookup_insert_eq).
  assert (RenderNode.destroy n h1 = (Ret tt, h1)) as Hagain.
  { erewrite run_destroy_no_tree by done. rewrite destroyed_idem.
    unfold with_nodes. rewrite insert_id by done. apply f_equal, heap_eta. }
  exists h1. split; [done|]. split; [done|].
  by erewrite run_bind_ret by done.
Qed.

Lemma destroy_idempotent_witness :
  ∃ h1, RenderNode.destroy 0 Scenario.family = (Ret tt, h1) ∧
        RenderNode.destroy 0 h1 = (Ret tt, h1) ∧
        (RenderNode.destroy 0;; RenderNode.destroy 0) Scenario.family
          = (Ret tt, h1).
Proof.
  apply (destroy_idempotent Scenario.family 0 Scenario.parent_node).
  - reflexivity.
  - by eexists.
Defined.

(** ** The editor: walking up the DOM *)

Lemma dom_path_det dom e l1 l2 :
  ContentKit.dom_path dom e l1 → ContentKit.dom_path dom e l2 → l1 = l2.
Proof.
  intros H1. revert l2.
  induction H1 as [e nd He Hp|e nd p l He Hp _ IH]; intros l2 H2;
    inversion H2; simplify_eq; [done|]. f_equal. eauto.
Qed.

Lemma dom_path_suffix dom e l a :
  ContentKit.dom_path dom e l → a ∈ l →
  ∃ l2, ContentKit.dom_path dom a l2 ∧ length l2 ≤ length l.
Proof.
  induction 1 as [e nd He Hp|e nd p l He Hp Hl IH]; intros Ha.
  - apply list_elem_of_singleton in Ha as ->.
    exists [e]. split; [by eapply ContentKit.dom_path_root|done].
  - apply elem_of_cons in Ha as [->|Ha].
    + exists (e :: l). split; [by eapply ContentKit.dom_path_step|done].
    + destruct (IH Ha) as (l2 & ? & ?). exists l2. split; [done|simpl; lia].
Qed.

(** The DOM is a tree: a walk to the top never visits a node twice. *)
Lemma dom_path_NoDup dom e l : ContentKit.dom_path dom e l → NoDup l.
Proof.
  induction 1 as [e nd He Hp|e nd p l He Hp Hl IH].
  - apply NoDup_singleton.
  - apply NoDup_cons. split; [|done]. intros Hin.
    destruct (dom_path_suffix _ _ _ _ Hl Hin) as (l2 & H2 & Hlen).
    assert (l2 = e :: l) as ->
      by (eapply dom_path_det; [done|by eapply ContentKit.dom_path_step]).
    simpl in Hlen. lia.
Qed.

Lemma run_node_of dom e nd :
  dom !! e = Some nd → ContentKit.node_of dom e = Ret nd.
Proof. intros He. unfold ContentKit.node_of. by rewrite He. Qed.

Lemma tag_of_lookup dom e nd :
  dom !! e = Some nd → ContentKit.tag_of dom e = ContentKit.tagName nd.
Proof. intros He. unfold ContentKit.tag_of. by rewrite He. Qed.

Lemma run_getEventTargetMatchingTag dom tag c : ∀ fuel tg path,
  ContentKit.dom_path dom tg path →
  length path < fuel →
  ContentKit.getEventTargetMatchingTag fuel dom tag (Some tg) c =
    Ret (find (λ e, bool_decide (ContentKit.tag_of dom e = tag))
           (ContentKit.take_until (λ e, bool_decide (e = c)) path)).
Proof.
  intros fuel tg path Hpath. revert fuel.
  induction Hpath as [e nd He Hp|e nd p l He Hp Hl IH]; intros fuel Hfuel;
    (destruct fuel as [|fuel]; [simpl in Hfuel; lia|]); simpl.
  - case_decide as Hc; [by rewrite bool_decide_eq_true_2|].
    rewrite bool_decide_eq_false_2 by done. simpl.
    rewrite (run_node_of _ _ _ He). simpl.
    rewrite (tag_of_lookup _ _ _ He).
    case_decide; [by rewrite bool_decide_eq_true_2|].
    rewrite bool_decide_eq_false_2 by done. rewrite Hp.
    destruct fuel; [simpl in Hfuel; lia|done].
  - case_decide as Hc; [by rewrite bool_decide_eq_true_2|].
    rewrite bool_decide_eq_false_2 by done. simpl.
    rewrite (run_node_of _ _ _ He). simpl.
    rewrite (tag_of_lookup _ _ _ He).
    case_decide; [by rewrite bool_decide_eq_true_2|].
    rewrite bool_decide_eq_false_2 by done. rewrite Hp.
    apply IH. simpl in Hfuel. lia.
Qed.

Lemma find_take_until_Some (P Q : Element → bool) l e :
  find P (ContentKit.take_until Q l) = Some e →
  ∃ pre suf, l = pre ++ e :: suf ∧
             Forall (λ x, Q x = false ∧ P x = false) pre ∧
             Q e = false ∧ P e = true.
Proof.
  induction l as [|x l IH]; simpl; [done|].
  destruct (Q x) eqn:HQ; [done|]. simpl.
  destruct (P x) eqn:HP.
  - intros [= <-]. by exists [], l.
  - intros (pre & suf & -> & Hpre & ? & ?)%IH.
    exists (x :: pre), suf. split; [done|]. split; [|done].
    by constructor.
Qed.

Lemma find_take_until_None (P Q : Element → bool) l :
  find P (ContentKit.take_until Q l) = None →
  Forall (λ x, P x = false) (ContentKit.take_until Q l).
Proof.
  induction l as [|x l IH]; simpl; [constructor|].
  destruct (Q x); [constructor|]. simpl.
  destruct (P x) eqn:HP; [done|]. intros ?%IH. by constructor.
Qed.

Lemma page_path6 : ContentKit.dom_path DomScenario.page 6 [6; 5; 4; 3; 2; 1].
Proof.
  do 5 (eapply ContentKit.dom_path_step; [reflexivity..|]).
  eapply ContentKit.dom_path_root; reflexivity.
Qed.

Lemma page_path7 : ContentKit.dom_path DomScenario.page 7 [7; 6; 5; 4; 3; 2; 1].
Proof.
  eapply ContentKit.dom_path_step; [reflexivity..|]. apply page_path6.
Qed.

Lemma page_path9 : ContentKit.dom_path DomScenario.page 9 [9; 8; 3; 2; 1].
Proof.
  do 4 (eapply ContentKit.dom_path_step; [reflexivity..|]).
  eapply ContentKit.dom_path_root; reflexivity.
Qed.

(** X8. [getEventTargetMatchingTag] answers the nearest node, from the
    event target upwards and strictly below the container, whose tag
    name is the wanted one, and [undefined] when there is none: every
    node it passed over lacks the tag and is not the container. A
    target that is the container, or no target, gives [undefined]. *)
Theorem getEventTargetMatchingTag_nearest dom tag c fuel tg path :
  ContentKit.dom_path dom tg path →
  length path < fuel →
  ∃ r, ContentKit.getEventTargetMatchingTag fuel dom tag (Some tg) c = Ret r ∧
       (∀ e, r = Some e →
          ∃ pre suf, path = pre ++ e :: suf ∧ e ≠ c ∧
                     ContentKit.tag_of dom e = tag ∧
                     ∀ x, x ∈ pre → x ≠ c ∧ ContentKit.tag_of dom x ≠ tag) ∧
       (r = None →
          ∀ x, x ∈ ContentKit.take_until (λ e, bool_decide (e = c)) path →
               ContentKit.tag_of dom x ≠ tag) ∧
       (tg = c → r = None) ∧
       ContentKit.getEventTargetMatchingTag fuel dom tag None c = Ret None.
Proof.
  intros Hpath Hfuel. eexists. split; [by apply run_getEventTargetMatchingTag|].
  split; [|split; [|split]].
  - intros e (pre & suf & -> & Hpre & Hc & Ht)%find_take_until_Some.
    exists pre, suf. split; [done|].
    apply bool_decide_eq_false in Hc. apply bool_decide_eq_true in Ht.
    split; [done|]. split; [done|]. intros x Hx.
    rewrite Forall_forall in Hpre. destruct (Hpre x Hx) as [Hxc Hxt].
    apply bool_decide_eq_false in Hxc. by apply bool_decide_eq_false in Hxt.
  - intros Hnone%find_take_until_None x Hx.
    rewrite Forall_forall in Hnone. specialize (Hnone x Hx).
    by apply bool_decide_eq_false in Hnone.
  - intros ->. destruct Hpath; simpl; by rewrite bool_decide_eq_true_2.
  - destruct fuel; [lia|done].
Qed.

Lemma getEventTargetMatchingTag_nearest_witness :
  ContentKit.getEventTargetMatchingTag 8 DomScenario.page
    (ContentKit.Str ContentKit.Tags_LINK) (Some 7) 3 = Ret (Some 5) ∧
  ContentKit.getEventTargetMatchingTag 8 DomScenario.page
    (ContentKit.Str ContentKit.Tags_LINK) (Some 9) 3 = Ret None.
Proof.
  destruct (getEventTargetMatchingTag_nearest DomScenario.page
              (ContentKit.Str ContentKit.Tags_LINK) 3 8 7 _ page_path7)
    as (r & Hr & _); [simpl; lia|].
  destruct (getEventTargetMatchingTag_nearest DomScenario.page
              (ContentKit.Str ContentKit.Tags_LINK) 3 8 9 _ page_path9)
    as (r' & Hr' & _); [simpl; lia|].
  split.
  - rewrite Hr. f_equal. vm_compute in Hr. by injection Hr.
  - rewrite Hr'. f_equal. vm_compute in Hr'. by injection Hr'.
Defined.

Lemma run_selectionIsInElement_loop dom element : ∀ fuel p path,
  ContentKit.dom_path dom p path →
  length path < fuel →
  ContentKit.selectionIsInElement_loop fuel dom (Some p) element
    = Ret (bool_decide (element ∈ path)).
Proof.
  intros fuel p path Hpath. revert fuel.
  induction Hpath as [e nd He Hp|e nd q l He Hp Hl IH]; intros fuel Hfuel;
    (destruct fuel as [|fuel]; [simpl in Hfuel; lia|]); simpl;
    (destruct (decide (e = element)) as [->|Hc];
       [by rewrite bool_decide_eq_true_2 by set_solver|]);
    rewrite (run_node_of _ _ _ He); simpl; rewrite Hp.
  - destruct fuel; [simpl in Hfuel; lia|]. simpl.
    by rewrite bool_decide_eq_false_2 by set_solver.
  - rewrite IH by (simpl in Hfuel; lia).
    f_equal. apply bool_decide_ext. set_solver.
Qed.

(** X9. [selectionIsInElement] answers whether the element is a proper
    ancestor of the focus node of the selection: a selection whose
    focus node is the element itself is not in the element. Without
    focus node the call throws a TypeError. *)
Theorem selectionIsInElement_proper_ancestor dom fuel sel element f anc :
  ContentKit.focusNode sel = Some f →
  ContentKit.dom_path dom f (f :: anc) →
  length anc < fuel →
  ContentKit.selectionIsInElement fuel dom sel element
    = Ret (bool_decide (element ∈ anc)) ∧
  ContentKit.selectionIsInElement fuel dom sel f = Ret false ∧
  ∀ sel0, ContentKit.focusNode sel0 = None →
          ContentKit.selectionIsInElement fuel dom sel0 element
            = Throw TypeError.
Proof.
  intros Hf Hpath Hfuel.
  assert (∀ el, ContentKit.selectionIsInElement fuel dom sel el
                = Ret (bool_decide (el ∈ anc))) as Hrun.
  { intros el. unfold ContentKit.selectionIsInElement. rewrite Hf. simpl.
    inversion Hpath as [? nd He Hp|? nd p l He Hp Hl]; simplify_eq;
      rewrite (run_node_of _ _ _ He); simpl; rewrite Hp.
    - destruct fuel; [lia|]. done.
    - by apply run_selectionIsInElement_loop. }
  split; [apply Hrun|]. split.
  - rewrite Hrun. apply dom_path_NoDup, NoDup_cons in Hpath as [Hnin _].
    by rewrite bool_decide_eq_false_2.
  - intros sel0 Hnone. unfold ContentKit.selectionIsInElement.
    by rewrite Hnone.
Qed.

Lemma selectionIsInElement_proper_ancestor_witness :
  let sel := ContentKit.mkSelection (Some 7) (Some 7) false in
  ContentKit.selectionIsInElement 8 DomScenario.page sel 3 = Ret true ∧
  ContentKit.selectionIsInElement 8 DomScenario.page sel 8 = Ret false ∧
  ContentKit.selectionIsInElement 8 DomScenario.page sel 7 = Ret false.
Proof.
  intros sel.
  destruct (selectionIsInElement_proper_ancestor DomScenario.page 8 sel 3 7
              [6; 5; 4; 3; 2; 1] eq_refl page_path7) as (H3 & H7 & _);
    [simpl; lia|].
  destruct (selectionIsInElement_proper_ancestor DomScenario.page 8 sel 8 7
              [6; 5; 4; 3; 2; 1] eq_refl page_path7) as (H8 & _ & _);
    [simpl; lia|].
  split; [|split].
  - rewrite H3. by rewrite bool_decide_eq_true_2 by set_solver.
  - rewrite H8. by rewrite bool_decide_eq_false_2 by set_solver.
  - exact H7.
Defined.

Lemma is_editor_lookup dom e nd :
  dom !! e = Some nd →
  ContentKit.is_editor dom e
    = bool_decide (ContentKit.contentEditable nd
                   = ContentKit.Str (ContentKit.js "true")).
Proof. intros He. unfold ContentKit.is_editor. by rewrite He. Qed.

Lemma run_tagsInSelection_loop dom : ∀ fuel n path tags,
  ContentKit.dom_path dom n path →
  length path < fuel →
  ContentKit.tagsInSelection_loop fuel dom (Some n) tags =
    Ret (tags ++ filter (λ t, ContentKit.truthy t = true)
                   (map (ContentKit.tag_of dom)
                      (ContentKit.take_until (ContentKit.is_editor dom) path))).
Proof.
  intros fuel n path tags Hpath. revert fuel tags.
  induction Hpath as [e nd He Hp|e nd p l He Hp Hl IH]; intros fuel tags Hfuel;
    (destruct fuel as [|fuel]; [simpl in Hfuel; lia|]); simpl;
    rewrite (run_node_of _ _ _ He); simpl;
    rewrite (is_editor_lookup _ _ _ He);
    (case_decide as Hed;
       [rewrite bool_decide_eq_true_2 by done; simpl; by rewrite app_nil_r|]);
    rewrite bool_decide_eq_false_2 by done; simpl;
    rewrite (tag_of_lookup _ _ _ He), Hp.
  - destruct fuel; [simpl in Hfuel; lia|]. simpl.
    rewrite filter_cons, filter_nil.
    destruct (ContentKit.truthy (ContentKit.tagName nd)) eqn:Htr.
    + by rewrite decide_True.
    + rewrite decide_False by congruence. by rewrite app_nil_r.
  - rewrite IH by (simpl in Hfuel; lia). rewrite filter_cons.
    destruct (ContentKit.truthy (ContentKit.tagName nd)) eqn:Htr.
    + rewrite decide_True by done. by rewrite <- app_assoc.
    + by rewrite decide_False by congruence.
Qed.

(** X10. [tagsInSelection] looks up the node of the selection before it
    reads [isCollapsed]. When that node is [n], the call lists the tag
    names from [n] upwards, innermost first, stopping before the first
    editor element ([contentEditable === 'true']) and skipping nodes
    without tag name, if the selection is not collapsed, and answers the
    empty list if it is. When the look-up finds no node (a text node
    without parent) the list is empty. A selection without anchor node
    or without focus node, such as the empty selection, makes the call
    throw a TypeError, collapsed or not. *)
Theorem tagsInSelection_up_to_editor
    (cdp : Element → Element → Z) dom ws sel fuel n path :
  ContentKit.getCurrentSelectionNode cdp dom ws (Some sel) = Ret (Some n) →
  ContentKit.dom_path dom n path →
  length path < fuel →
  ContentKit.tagsInSelection cdp fuel dom ws sel =
    Ret (if ContentKit.isCollapsed sel then []
         else filter (λ t, ContentKit.truthy t = true)
                (map (ContentKit.tag_of dom)
                   (ContentKit.take_until (ContentKit.is_editor dom) path))) ∧
  (∀ sel0,
     ContentKit.getCurrentSelectionNode cdp dom ws (Some sel0) = Ret None →
     ContentKit.tagsInSelection cdp fuel dom ws sel0 = Ret []) ∧
  (∀ sel0,
     ContentKit.anchorNode sel0 = None ∨ ContentKit.focusNode sel0 = None →
     ContentKit.tagsInSelection cdp fuel dom ws sel0 = Throw TypeError).
Proof.
  intros Hnode Hpath Hfuel. split; [|split].
  - unfold ContentKit.tagsInSelection.
    rewrite Hnode. simpl.
    destruct (ContentKit.isCollapsed sel); simpl; [done|].
    by rewrite (run_tagsInSelection_loop _ _ _ _ _ Hpath Hfuel).
  - intros sel0 Hnone. unfold ContentKit.tagsInSelection.
    rewrite Hnone. simpl.
    destruct (ContentKit.isCollapsed sel0); simpl; [done|].
    destruct fuel as [|fuel]; [lia|done].
  - intros sel0 Hnull.
    unfold ContentKit.tagsInSelection, ContentKit.getCurrentSelectionNode,
      ContentKit.getDirectionOfSelection.
    simpl.
    destruct (ContentKit.anchorNode sel0) as [anchor|]; [|done].
    destruct (ContentKit.focusNode sel0) as [focus|]; [|done].
    by destruct Hnull.
Qed.

Lemma tagsInSelection_up_to_editor_witness :
  ContentKit.tagsInSelection DomScenario.compareDocumentPosition 8
    DomScenario.page (DomScenario.caret 9) (DomScenario.range 7)
    = Ret [ContentKit.Str (ContentKit.js "B");
           ContentKit.Str (ContentKit.js "A");
           ContentKit.Str (ContentKit.js "P")] ∧
  ContentKit.tagsInSelection DomScenario.compareDocumentPosition 8
    DomScenario.page (DomScenario.caret 9) (DomScenario.caret 7) = Ret [] ∧
  ContentKit.tagsInSelection DomScenario.compareDocumentPosition 8
    DomScenario.page (DomScenario.caret 9)
    (ContentKit.mkSelection None None true) = Throw TypeError.
Proof.
  destruct (tagsInSelection_up_to_editor
              DomScenario.compareDocumentPosition DomScenario.page
              (DomScenario.caret 9) (DomScenario.range 7) 8 6
              [6; 5; 4; 3; 2; 1]) as (Hrange & _ & Hnull);
    [reflexivity|apply page_path6|simpl; lia|].
  destruct (tagsInSelection_up_to_editor
              DomScenario.compareDocumentPosition DomScenario.page
              (DomScenario.caret 9) (DomScenario.caret 7) 8 6
              [6; 5; 4; 3; 2; 1]) as (Hcaret & _ & _);
    [reflexivity|apply page_path6|simpl; lia|].
  split; [|split].
  - rewrite Hrange. reflexivity.
  - rewrite Hcaret. reflexivity.
  - apply Hnull. by left.
Defined.

Lemma is_root_lookup dom e nd :
  dom !! e = Some nd →
  ContentKit.is_root dom e =
    negb (ContentKit.truthy (ContentKit.tagName nd)
          && ContentKit.not_in_RootTags (ContentKit.tagName nd))
    || bool_decide (ContentKit.contentEditable nd
                    = ContentKit.Str (ContentKit.js "true")).
Proof.
  intros He. unfold ContentKit.is_root.
  by rewrite (tag_of_lookup _ _ _ He), (is_editor_lookup _ _ _ He).
Qed.

Lemma run_getCurrentSelectionRootNode_loop dom : ∀ fuel n path,
  ContentKit.dom_path dom n path →
  length path ≤ fuel →
  ContentKit.getCurrentSelectionRootNode_loop fuel dom n
    (ContentKit.tag_of dom n) =
    match find (ContentKit.is_root dom) path with
    | Some r => Ret r
    | None => Throw TypeError
    end.
Proof.
  intros fuel n path Hpath. revert fuel.
  induction Hpath as [e nd He Hp|e nd p l He Hp Hl IH]; intros fuel Hfuel;
    (destruct fuel as [|fuel]; [simpl in Hfuel; lia|]); simpl;
    rewrite (is_root_lookup _ _ _ He), (tag_of_lookup _ _ _ He);
    (destruct (ContentKit.truthy (ContentKit.tagName nd)
               && ContentKit.not_in_RootTags (ContentKit.tagName nd));
       simpl; [|done]);
    rewrite (run_node_of _ _ _ He); simpl;
    (case_decide as Hed;
       [by rewrite bool_decide_eq_true_2|
        rewrite bool_decide_eq_false_2 by done]);
    rewrite Hp; simpl; [done|].
  inversion Hl as [? pd Hpd _|? pd ? ? Hpd _ _]; simplify_eq;
    rewrite (run_node_of _ _ _ Hpd); simpl;
    rewrite <- (tag_of_lookup _ _ _ Hpd); apply IH; simpl in *; lia.
Qed.

(** X11. [getCurrentSelectionRootNode] answers the nearest node, from
    the node of the selection upwards, that has no tag name, has one of
    the root tags, or is an editor element. When no node up to the top
    is one of these (a subtree that is not in a document), the walk
    runs off the top and the call throws a TypeError. *)
Theorem getCurrentSelectionRootNode_nearest
    (cdp : Element → Element → Z) dom ws fuel n path :
  ContentKit.getCurrentSelectionNode cdp dom ws None = Ret (Some n) →
  ContentKit.dom_path dom n path →
  length path ≤ fuel →
  ContentKit.getCurrentSelectionRootNode cdp fuel dom ws =
    match find (ContentKit.is_root dom) path with
    | Some r => Ret r
    | None => Throw TypeError
    end ∧
  (∀ r, find (ContentKit.is_root dom) path = Some r →
     ∃ pre suf, path = pre ++ r :: suf ∧ ContentKit.is_root dom r = true ∧
                ∀ x, x ∈ pre → ContentKit.is_root dom x = false) ∧
  (find (ContentKit.is_root dom) path = None →
     ∀ x, x ∈ path → ContentKit.is_root dom x = false).
Proof.
  intros Hnode Hpath Hfuel. split; [|split].
  - unfold ContentKit.getCurrentSelectionRootNode. rewrite Hnode. simpl.
    assert (∃ nd, dom !! n = Some nd) as [nd Hnd]
      by (inversion Hpath; eauto).
    rewrite (run_node_of _ _ _ Hnd). simpl.
    rewrite <- (tag_of_lookup _ _ _ Hnd).
    by apply run_getCurrentSelectionRootNode_loop.
  - intros r Hr.
    clear -Hr. induction path as [|x l IH]; [done|]. simpl in Hr.
    destruct (ContentKit.is_root dom x) eqn:Hx.
    + injection Hr as <-. exists [], l. split; [done|]. split; [done|].
      by intros y ?%elem_of_nil.
    + destruct (IH Hr) as (pre & suf & -> & Hroot & Hpre).
      exists (x :: pre), suf. split; [done|]. split; [done|].
      intros y [->|Hy]%elem_of_cons; eauto.
  - intros Hnone x Hx. clear -Hnone Hx.
    induction path as [|y l IH]; [by apply elem_of_nil in Hx|].
    simpl in Hnone. destruct (ContentKit.is_root dom y) eqn:Hy; [done|].
    apply elem_of_cons in Hx as [->|Hx]; eauto.
Qed.

Lemma getCurrentSelectionRootNode_nearest_witness :
  ContentKit.getCurrentSelectionRootNode DomScenario.compareDocumentPosition
    7 DomScenario.page (DomScenario.caret 7) = Ret 4 ∧
  ContentKit.getCurrentSelectionRootNode DomScenario.compareDocumentPosition
    7 DomScenario.page (DomScenario.caret 11) = Ret 3.
Proof.
  split.
  - destruct (getCurrentSelectionRootNode_nearest
                DomScenario.compareDocumentPosition DomScenario.page
                (DomScenario.caret 7) 7 6 [6; 5; 4; 3; 2; 1]) as [Hrun _];
      [reflexivity| |simpl; lia|exact Hrun].
    apply page_path6.
  - destruct (getCurrentSelectionRootNode_nearest
                DomScenario.compareDocumentPosition DomScenario.page
                (DomScenario.caret 11) 7 10 [10; 3; 2; 1]) as [Hrun _];
      [reflexivity| |simpl; lia|exact Hrun].
    do 3 (eapply ContentKit.dom_path_step; [reflexivity..|]).
    eapply ContentKit.dom_path_root; reflexivity.
Defined.

(** ** The editor: commands *)

Lemma dom_path_allocated dom e l a :
  ContentKit.dom_path dom e l → a ∈ l → is_Some (dom !! a).
Proof.
  induction 1 as [e nd He Hp|e nd p l He Hp Hl IH]; intros Ha.
  - apply list_elem_of_singleton in Ha as ->. eauto.
  - apply elem_of_cons in Ha as [->|Ha]; eauto.
Qed.

Lemma canonicalize_H h :
  Ascii.eqb (ContentKit.canonicalize "H") (ContentKit.canonicalize h) = true
  ↔ h = "H"%char ∨ h = "h"%char.
Proof.
  destruct h as [[] [] [] [] [] [] [] []]; vm_compute;
    (split; [intros; first [discriminate|by left|by right]
            |intros [?|?]; first [discriminate|reflexivity]]).
Qed.

Lemma canonicalize_digit (p d : ascii) :
  p ∈ ["1"; "2"; "3"; "4"; "5"; "6"]%char →
  Ascii.eqb (ContentKit.canonicalize p) (ContentKit.canonicalize d) = true
  ↔ d = p.
Proof.
  intros Hp. repeat (apply elem_of_cons in Hp as [->|Hp]);
    [..|by apply elem_of_nil in Hp];
    destruct d as [[] [] [] [] [] [] [] []]; vm_compute;
    (split; intros; first [discriminate|reflexivity]).
Qed.

Lemma ci_prefix_cons p pat c s :
  ContentKit.ci_prefix (p :: pat) (c :: s) =
    Ascii.eqb (ContentKit.canonicalize p) (ContentKit.canonicalize c)
    && ContentKit.ci_prefix pat s.
Proof. done. Qed.

(** The heading expression matches exactly [H1] to [H6], in either case. *)
Lemma HEADING_TAG_test_spec s :
  ContentKit.HEADING_TAG_test s = true ↔
  ∃ h d, s = [h; d] ∧ (h = "H" ∨ h = "h")%char ∧
         d ∈ ["1"; "2"; "3"; "4"; "5"; "6"]%char.
Proof.
  unfold ContentKit.HEADING_TAG_test. rewrite existsb_exists. split.
  - intros (p & Hp & Htest). apply andb_prop in Htest as [Htest Hlen].
    apply Nat.eqb_eq in Hlen.
    assert (length s = 2) as Hs
      by (repeat (destruct Hp as [<-|Hp]; [exact Hlen|]); done).
    destruct s as [|h [|d [|x s]]]; try done.
    exists h, d. split; [done|].
    repeat (destruct Hp as [<-|Hp]; [|]); [..|done];
      unfold ContentKit.js in Htest;
      cbn [String.list_ascii_of_string] in Htest;
      rewrite !ci_prefix_cons in Htest;
      apply andb_prop in Htest as [Hh Hd];
      apply andb_prop in Hd as [Hd _];
      (split; [by apply canonicalize_H|]);
      (apply canonicalize_digit in Hd; [|set_solver]); subst; set_solver.
  - intros (h & d & -> & Hh & Hd).
    exists (String "H" (String d EmptyString)). split.
    + repeat (apply elem_of_cons in Hd as [->|Hd]);
        [..|by apply elem_of_nil in Hd]; simpl; tauto.
    + unfold ContentKit.js. cbn [String.list_ascii_of_string length].
      rewrite !ci_prefix_cons. apply canonicalize_H in Hh. rewrite Hh.
      by rewrite Ascii.eqb_refl.
Qed.

(** X12. The bold command issues [execCommand('bold', false, null)]
    unless the tag name of the root node of the selection is one of
    [H1] to [H6] (in either case), when it issues nothing. The root
    node is the one that [getCurrentSelectionRootNode] finds, so inside
    a heading that is not a root tag the decision falls on a node
    further up. *)
Theorem BoldCommand_exec_skips_headings
    (cdp : Element → Element → Z) dom ws fuel n path r :
  ContentKit.getCurrentSelectionNode cdp dom ws None = Ret (Some n) →
  ContentKit.dom_path dom n path →
  length path ≤ fuel →
  find (ContentKit.is_root dom) path = Some r →
  ContentKit.BoldCommand_exec cdp fuel dom ws ContentKit.BoldCommand_new =
    Ret (if ContentKit.HEADING_TAG_test
              (ContentKit.toString (ContentKit.tag_of dom r))
         then []
         else [ContentKit.mkExecCommand
                 (ContentKit.Str (ContentKit.js "bold")) ContentKit.Null]) ∧
  (ContentKit.HEADING_TAG_test (ContentKit.toString (ContentKit.tag_of dom r))
     = true ↔
   ∃ h d, ContentKit.toString (ContentKit.tag_of dom r) = [h; d] ∧
          (h = "H" ∨ h = "h")%char ∧
          d ∈ ["1"; "2"; "3"; "4"; "5"; "6"]%char).
Proof.
  intros Hnode Hpath Hfuel Hfind. split; [|apply HEADING_TAG_test_spec].
  destruct (getCurrentSelectionRootNode_nearest cdp dom ws fuel n path
              Hnode Hpath Hfuel) as (Hroot & Hsome & _).
  rewrite Hfind in Hroot.
  destruct (Hsome r Hfind) as (pre & suf & Hr & _).
  destruct (dom_path_allocated dom n path r Hpath) as [rd Hrd].
  { rewrite Hr. set_solver. }
  unfold ContentKit.BoldCommand_exec, ContentKit.getCurrentSelectionRootTag.
  rewrite Hroot. simpl. rewrite (run_node_of _ _ _ Hrd). simpl.
  rewrite (tag_of_lookup _ _ _ Hrd).
  by destruct (ContentKit.HEADING_TAG_test _).
Qed.

Lemma BoldCommand_exec_skips_headings_witness :
  ContentKit.BoldCommand_exec DomScenario.compareDocumentPosition 7
    DomScenario.page (DomScenario.caret 9) ContentKit.BoldCommand_new
    = Ret [] ∧
  ContentKit.BoldCommand_exec DomScenario.compareDocumentPosition 7
    DomScenario.page (DomScenario.caret 11) ContentKit.BoldCommand_new
    = Ret [ContentKit.mkExecCommand
             (ContentKit.Str (ContentKit.js "bold")) ContentKit.Null].
Proof.
  split.
  - destruct (BoldCommand_exec_skips_headings
                DomScenario.compareDocumentPosition DomScenario.page
                (DomScenario.caret 9) 7 8 [8; 3; 2; 1] 8) as [Hrun _];
      [reflexivity| |simpl; lia|reflexivity|exact Hrun].
    do 3 (eapply ContentKit.dom_path_step; [reflexivity..|]).
    eapply ContentKit.dom_path_root; reflexivity.
  - destruct (BoldCommand_exec_skips_headings
                DomScenario.compareDocumentPosition DomScenario.page
                (DomScenario.caret 11) 7 10 [10; 3; 2; 1] 3) as [Hrun _];
      [reflexivity| |simpl; lia|reflexivity|exact Hrun].
    do 3 (eapply ContentKit.dom_path_step; [reflexivity..|]).
    eapply ContentKit.dom_path_root; reflexivity.
Defined.

Lemma HTTP_PROTOCOL_test_prefixed s :
  ContentKit.HTTP_PROTOCOL_test (ContentKit.js "http://" ++ s) = true.
Proof.
  unfold ContentKit.HTTP_PROTOCOL_test, ContentKit.js.
  cbn [String.list_ascii_of_string app]. rewrite !ci_prefix_cons.
  by rewrite !Ascii.eqb_refl.
Qed.

Lemma HTTP_PROTOCOL_test_string v :
  ContentKit.HTTP_PROTOCOL_test (ContentKit.toString v) = true →
  ∃ c s, v = ContentKit.Str (c :: s).
Proof.
  destruct v as [[|c s]| |]; [done|eauto|by vm_compute..].
Qed.

(** X13. The link command, run while the node of the selection is not
    itself a link, issues exactly one [createLink] whose address begins
    with [http://] or [https://] (in any case): an address that has
    such a beginning is passed as it is, and any other value, the
    missing argument included, is put behind [http://]. When the node
    of the selection is a link ([A]) the command issues [unlink]
    instead. *)
Theorem LinkCommand_exec_scheme
    (cdp : Element → Element → Z) dom ws url t :
  ContentKit.getCurrentSelectionTag cdp dom ws = Ret t →
  ∃ calls,
    ContentKit.LinkCommand_exec cdp dom ws ContentKit.LinkCommand_new url
      = Ret calls ∧
    (t = ContentKit.Str ContentKit.Tags_LINK →
     calls = [ContentKit.mkExecCommand
                (ContentKit.Str (ContentKit.js "unlink")) ContentKit.Null]) ∧
    (t ≠ ContentKit.Str ContentKit.Tags_LINK →
     ∃ u, calls = [ContentKit.mkExecCommand
                     (ContentKit.Str (ContentKit.js "createLink"))
                     (ContentKit.Str u)] ∧
          ContentKit.HTTP_PROTOCOL_test u = true ∧
          (ContentKit.HTTP_PROTOCOL_test (ContentKit.toString url) = true →
           url = ContentKit.Str u) ∧
          (ContentKit.HTTP_PROTOCOL_test (ContentKit.toString url) = false →
           u = ContentKit.js "http://" ++ ContentKit.toString url)).
Proof.
  intros Htag. unfold ContentKit.LinkCommand_exec. rewrite Htag. simpl.
  change (ContentKit.tag ContentKit.LinkCommand_new)
    with (ContentKit.Str ContentKit.Tags_LINK).
  destruct (decide (ContentKit.Str ContentKit.Tags_LINK = t)) as [<-|Hne].
  - eexists. split; [done|]. split; [done|]. by intros [].
  - eexists. split; [done|]. split; [by intros ->|]. intros _.
    destruct (ContentKit.HTTP_PROTOCOL_test (ContentKit.toString url))
      eqn:Htest; simpl.
    + destruct (HTTP_PROTOCOL_test_string _ Htest) as (c & s & ->).
      exists (c :: s). split; [done|]. split; [done|]. by split.
    + exists (ContentKit.js "http://" ++ ContentKit.toString url).
      split; [done|]. split; [apply HTTP_PROTOCOL_test_prefixed|]. by split.
Qed.

Lemma LinkCommand_exec_scheme_witness :
  ContentKit.LinkCommand_exec DomScenario.compareDocumentPosition
    DomScenario.page (DomScenario.range 7) ContentKit.LinkCommand_new
    ContentKit.Undefined
    = Ret [ContentKit.mkExecCommand
             (ContentKit.Str (ContentKit.js "createLink"))
             (ContentKit.Str (ContentKit.js "http://undefined"))] ∧
  ContentKit.LinkCommand_exec DomScenario.compareDocumentPosition
    DomScenario.page (DomScenario.range 7) ContentKit.LinkCommand_new
    (ContentKit.Str (ContentKit.js "HTTPS://example.org"))
    = Ret [ContentKit.mkExecCommand
             (ContentKit.Str (ContentKit.js "createLink"))
             (ContentKit.Str (ContentKit.js "HTTPS://example.org"))].
Proof.
  destruct (LinkCommand_exec_scheme DomScenario.compareDocumentPosition
              DomScenario.page (DomScenario.range 7) ContentKit.Undefined
              (ContentKit.Str (ContentKit.js "B")) eq_refl)
    as (calls & Hrun & _ & Hlink).
  destruct (LinkCommand_exec_scheme DomScenario.compareDocumentPosition
              DomScenario.page (DomScenario.range 7)
              (ContentKit.Str (ContentKit.js "HTTPS://example.org"))
              (ContentKit.Str (ContentKit.js "B")) eq_refl)
    as (calls' & Hrun' & _ & Hlink').
  destruct Hlink as (u & -> & _ & _ & Hu); [done|].
  destruct Hlink' as (u' & -> & _ & Hu' & _); [done|].
  split.
  - rewrite Hrun. by rewrite (Hu eq_refl).
  - rewrite Hrun'. specialize (Hu' eq_refl). by injection Hu' as <-.
Defined.

(** ** The editor: pasted text *)

Lemma split_NEWLINE_nonempty s : ContentKit.split_NEWLINE s ≠ [].
Proof.
  destruct s as [|c s]; simpl; [done|].
  destruct (ContentKit.NEWLINE_char c); [done|].
  by destruct (ContentKit.split_NEWLINE s).
Qed.

Lemma split_NEWLINE_single s :
  Forall (λ c, ContentKit.NEWLINE_char c = false) s →
  ContentKit.split_NEWLINE s = [s].
Proof.
  induction 1 as [|c s Hc _ IH]; simpl; [done|]. by rewrite Hc, IH.
Qed.

Lemma split_NEWLINE_length s :
  length (ContentKit.split_NEWLINE s)
    = S (length (filter (λ c, ContentKit.NEWLINE_char c = true) s)).
Proof.
  induction s as [|c s IH]; simpl; [done|]. rewrite filter_cons.
  destruct (ContentKit.NEWLINE_char c) eqn:Hc.
  - rewrite decide_True by done. simpl. by rewrite IH.
  - rewrite decide_False by congruence.
    pose proof (split_NEWLINE_nonempty s).
    destruct (ContentKit.split_NEWLINE s); [done|]. by rewrite <- IH.
Qed.

Lemma split_NEWLINE_concat s :
  concat (ContentKit.split_NEWLINE s)
    = filter (λ c, ContentKit.NEWLINE_char c = false) s.
Proof.
  induction s as [|c s IH]; simpl; [done|]. rewrite filter_cons.
  destruct (ContentKit.NEWLINE_char c) eqn:Hc.
  - by rewrite decide_False by congruence.
  - rewrite decide_True by done.
    pose proof (split_NEWLINE_nonempty s).
    destruct (ContentKit.split_NEWLINE s); [done|]. simpl in *.
    by rewrite IH.
Qed.

Lemma split_NEWLINE_blocks s :
  Forall (Forall (λ c, ContentKit.NEWLINE_char c = false))
    (ContentKit.split_NEWLINE s).
Proof.
  induction s as [|c s IH]; simpl; [by repeat constructor|].
  destruct (ContentKit.NEWLINE_char c) eqn:Hc; [by constructor|].
  destruct (ContentKit.split_NEWLINE s) as [|b bs];
    [by repeat constructor|].
  apply Forall_cons in IH as [Hb Hbs]. by repeat constructor.
Qed.

Lemma concat_filter_nonempty (bs : list (list ascii)) :
  concat (filter (λ b, b ≠ []) bs) = concat bs.
Proof.
  induction bs as [|b bs IH]; [done|]. rewrite filter_cons.
  destruct (decide (b ≠ [])) as [Hb|Hb]; simpl; [by rewrite IH|].
  apply dec_stable in Hb. by subst.
Qed.

Lemma plainTextToBlocks_loop (openTag closeTag : list ascii) blocks : ∀ content,
  fold_left
    (λ content block,
       if decide (block ≠ []) then content ++ openTag ++ block ++ closeTag
       else content)
    blocks content
  = content ++ concat (map (λ block, openTag ++ block ++ closeTag)
                         (filter (λ b, b ≠ []) blocks)).
Proof.
  induction blocks as [|b bs IH]; intros content; simpl;
    [by rewrite app_nil_r|].
  rewrite IH, filter_cons. destruct (decide (b ≠ [])); simpl; [|done].
  by rewrite <- !app_assoc.
Qed.

(** X14. Text without carriage return or line feed is pasted as it is:
    [plainTextToBlocks] answers the text itself, the empty text
    included, and wraps nothing. *)
Theorem plainTextToBlocks_single_line plainText blockTag :
  Forall (λ c, ContentKit.NEWLINE_char c = false) plainText →
  ContentKit.plainTextToBlocks plainText blockTag = plainText.
Proof.
  intros Hs. unfold ContentKit.plainTextToBlocks.
  by rewrite split_NEWLINE_single.
Qed.

Lemma plainTextToBlocks_single_line_witness :
  ContentKit.plainTextToBlocks (ContentKit.js "a <b> c") (ContentKit.js "P")
    = ContentKit.js "a <b> c" ∧
  ContentKit.plainTextToBlocks [] (ContentKit.js "P") = [].
Proof.
  split; apply plainTextToBlocks_single_line; by repeat constructor.
Defined.

(** X15. Text with a carriage return or a line feed is cut at each of
    them and every non-empty line is wrapped, in order and verbatim
    (nothing is escaped), in an opening and a closing block tag; empty
    lines give nothing. The lines put together are the text without its
    carriage returns and line feeds, and when the block tag holds none,
    neither does the result. *)
Theorem plainTextToBlocks_blocks plainText blockTag :
  Exists (λ c, ContentKit.NEWLINE_char c = true) plainText →
  let lines := filter (λ b, b ≠ []) (ContentKit.split_NEWLINE plainText) in
  ContentKit.plainTextToBlocks plainText blockTag =
    concat (map (λ line, ContentKit.js "<" ++ blockTag ++ ContentKit.js ">"
                           ++ line
                           ++ ContentKit.js "</" ++ blockTag ++ ContentKit.js ">")
              lines) ∧
  concat lines = filter (λ c, ContentKit.NEWLINE_char c = false) plainText ∧
  (Forall (λ c, ContentKit.NEWLINE_char c = false) blockTag →
   Forall (λ c, ContentKit.NEWLINE_char c = false)
     (ContentKit.plainTextToBlocks plainText blockTag)).
Proof.
  intros Hnl lines.
  assert (ContentKit.plainTextToBlocks plainText blockTag =
    concat (map (λ line, ContentKit.js "<" ++ blockTag ++ ContentKit.js ">"
                           ++ line
                           ++ ContentKit.js "</" ++ blockTag ++ ContentKit.js ">")
              lines)) as Hrun.
  { unfold ContentKit.plainTextToBlocks.
    assert (2 ≤ length (ContentKit.split_NEWLINE plainText)) as Hlen.
    { rewrite split_NEWLINE_length.
      apply Exists_exists in Hnl as (c & Hc & Hnl).
      assert (c ∈ filter (λ c, ContentKit.NEWLINE_char c = true) plainText)
        as Hin by (apply list_elem_of_filter; by split).
      destruct (filter _ plainText); [by apply elem_of_nil in Hin|].
      simpl. lia. }
    apply Nat.ltb_ge in Hlen. rewrite Hlen.
    rewrite plainTextToBlocks_loop. simpl. f_equal.
    apply map_ext. intros line. by rewrite <- !app_assoc. }
  split; [done|]. split.
  - unfold lines. by rewrite concat_filter_nonempty, split_NEWLINE_concat.
  - intros Htag. rewrite Hrun. apply Forall_concat, Forall_map.
    pose proof (split_NEWLINE_blocks plainText) as Hblocks.
    rewrite Forall_forall in Hblocks. apply Forall_forall.
    intros line [_ Hline]%list_elem_of_filter.
    specialize (Hblocks _ Hline).
    repeat (apply Forall_app; split); try done; by repeat constructor.
Qed.

Lemma plainTextToBlocks_blocks_witness :
  ContentKit.plainTextToBlocks
    (ContentKit.js "one" ++ [ascii_of_nat 13; ascii_of_nat 10]
       ++ ContentKit.js "<two>" ++ [ascii_of_nat 10])
    (ContentKit.js "P")
  = ContentKit.js "<P>one</P><P><two></P>" ∧
  ContentKit.plainTextToBlocks [ascii_of_nat 10] (ContentKit.js "P") = [].
Proof.
  split.
  - destruct (plainTextToBlocks_blocks
                (ContentKit.js "one" ++ [ascii_of_nat 13; ascii_of_nat 10]
                   ++ ContentKit.js "<two>" ++ [ascii_of_nat 10])
                (ContentKit.js "P")) as [Hrun _];
      [|rewrite Hrun; reflexivity].
    apply Exists_exists. exists (ascii_of_nat 10). split; [|reflexivity].
    vm_compute. set_solver.
  - destruct (plainTextToBlocks_blocks [ascii_of_nat 10]
                (ContentKit.js "P")) as [Hrun _];
      [by constructor|rewrite Hrun; reflexivity].
Defined.

(** ** Toolbar buttons *)

(** What [setActive] ([v = true]) and [setInactive] ([v = false]) leave. *)
Lemma set_button_state (v : bool) (b : nat) (ui : ContentKit.Ui)
    (button : ContentKit.ToolbarButton) :
  ContentKit.ui_ok ui →
  ContentKit.toolbarButtons ui !! b = Some button →
  ∃ ui',
    (if v then ContentKit.setActive b ui else ContentKit.setInactive b ui)
      = Ret ui' ∧
    ContentKit.ui_ok ui' ∧
    ContentKit.toolbarButtons ui'
      = <[b := ContentKit.mkToolbarButton (ContentKit.element button)
                 (ContentKit.command button) v]>
          (ContentKit.toolbarButtons ui) ∧
    (∀ e, e ≠ ContentKit.element button →
       ContentKit.classNames ui' !! e = ContentKit.classNames ui !! e).
Proof.
  intros [Hclass Hinj] Hb.
  destruct button as [e c a]; simpl.
  destruct (decide (a = v)) as [->|Hav].
  - exists ui. repeat split; try done.
    + unfold ContentKit.setActive, ContentKit.setInactive.
      rewrite Hb; by destruct v.
    + by rewrite insert_id.
  - exists (ContentKit.mkUi
              (<[e := ContentKit.class_of v]> (ContentKit.classNames ui))
              (<[b := ContentKit.mkToolbarButton e c v]>
                 (ContentKit.toolbarButtons ui))).
    split; [|split; [split|split]]; simpl.
    + unfold ContentKit.setActive, ContentKit.setInactive.
      rewrite Hb. by destruct v, a.
    + intros b' button' Hb'.
      destruct (decide (b' = b)) as [->|Hne].
      * rewrite lookup_insert_eq in Hb'. inversion Hb'; subst; simpl.
        by rewrite lookup_insert_eq.
      * rewrite lookup_insert_ne in Hb' by done.
        rewrite lookup_insert_ne; [by apply (Hclass b')|].
        intros He. apply Hne. symmetry.
        by apply (Hinj b b' _ _ Hb Hb').
    + intros b1 b2 button1 button2 H1 H2 He.
      assert (Hsame : ∀ b' button',
                <[b := ContentKit.mkToolbarButton e c v]>
                  (ContentKit.toolbarButtons ui) !! b' = Some button' →
                ∃ button0, ContentKit.toolbarButtons ui !! b' = Some button0 ∧
                           ContentKit.element button0
                             = ContentKit.element button').
      { intros b' button' Hb'.
        destruct (decide (b' = b)) as [->|Hne].
        - rewrite lookup_insert_eq in Hb'. inversion Hb'; subst.
          by eexists.
        - rewrite lookup_insert_ne in Hb' by done. by eexists. }
      destruct (Hsame _ _ H1) as (o1 & Ho1 & He1).
      destruct (Hsame _ _ H2) as (o2 & Ho2 & He2).
      apply (Hinj b1 b2 o1 o2 Ho1 Ho2). congruence.
    + done.
    + intros e' He'. by rewrite lookup_insert_ne.
Qed.

Lemma updateButtonsForSelection_loop_spec
    (selectedTags : list ContentKit.StringValue) (buttons : list nat)
    (ui : ContentKit.Ui) :
  ContentKit.ui_ok ui →
  Forall (λ b, is_Some (ContentKit.toolbarButtons ui !! b)) buttons →
  ∃ ui',
    ContentKit.updateButtonsForSelection_loop selectedTags buttons ui
      = Ret ui' ∧
    ContentKit.ui_ok ui' ∧
    ContentKit.toolbarButtons ui'
      = map_imap (λ b button, Some (ContentKit.updated_button selectedTags buttons b
                                      button))
          (ContentKit.toolbarButtons ui) ∧
    (∀ e, (∀ b button, b ∈ buttons →
             ContentKit.toolbarButtons ui !! b = Some button →
             ContentKit.element button ≠ e) →
       ContentKit.classNames ui' !! e = ContentKit.classNames ui !! e).
Proof.
  revert ui. induction buttons as [|b buttons IH]; intros ui Hok Hall.
  - exists ui. repeat split; try done; try apply Hok.
    apply map_eq. intros b. rewrite map_lookup_imap.
    destruct (ContentKit.toolbarButtons ui !! b) as [[e c a]|] eqn:Hb;
      [|done].
    done.
  - inversion Hall as [|? ? [button Hb] Hall']; subst.
    destruct (set_button_state
                (bool_decide (ContentKit.tag (ContentKit.command button)
                                ∈ selectedTags))
                b ui button Hok Hb) as (ui1 & Hrun1 & Hok1 & Hbs1 & Hcl1).
    destruct (IH ui1 Hok1) as (ui' & Hrun & Hok' & Hbs & Hcl).
    { rewrite Hbs1. eapply Forall_impl; [exact Hall'|].
      intros b' [button' Hb']. simpl.
      destruct (decide (b' = b)) as [->|Hne].
      - rewrite lookup_insert_eq. by eexists.
      - rewrite lookup_insert_ne by done. by eexists. }
    exists ui'. split; [|split; [done|split]].
    + simpl. rewrite Hb. simpl.
      destruct (bool_decide _); by rewrite Hrun1.
    + rewrite Hbs, Hbs1. apply map_eq. intros b'.
      rewrite !map_lookup_imap.
      destruct (decide (b' = b)) as [->|Hne].
      * rewrite lookup_insert_eq, Hb. simpl. f_equal.
        unfold ContentKit.updated_button; simpl.
        rewrite (decide_True (P := b ∈ b :: buttons)) by set_solver.
        by destruct (decide (b ∈ buttons)).
      * rewrite lookup_insert_ne by done.
        destruct (ContentKit.toolbarButtons ui !! b') as [button'|] eqn:Hb';
          [|done].
        simpl. f_equal. unfold ContentKit.updated_button; simpl.
        destruct (decide (b' ∈ buttons)) as [Hin|Hin].
        -- by rewrite decide_True by set_solver.
        -- by rewrite decide_False by set_solver.
    + intros e He. rewrite Hcl.
      * apply Hcl1. intros ->. apply (He b button); [set_solver|done|done].
      * intros b' button' Hin Hb'. rewrite Hbs1 in Hb'.
        destruct (decide (b' = b)) as [->|Hne].
        -- rewrite lookup_insert_eq in Hb'. inversion Hb'; subst; simpl.
           apply (He b button); [set_solver|done].
        -- rewrite lookup_insert_ne in Hb' by done.
           apply (He b' button'); [set_solver|done].
Qed.

Lemma toolbar_ui_ok : ContentKit.ui_ok DomScenario.toolbar_ui.
Proof.
  assert (Hcases : ∀ b button,
            ContentKit.toolbarButtons DomScenario.toolbar_ui !! b
              = Some button →
            (b = 0 ∧ ContentKit.element button = 20
               ∧ ContentKit.isActive button = false) ∨
            (b = 1 ∧ ContentKit.element button = 21
               ∧ ContentKit.isActive button = true) ∨
            (b = 2 ∧ ContentKit.element button = 22
               ∧ ContentKit.isActive button = false)).
  { intros b button Hb. simpl in Hb.
    apply lookup_insert_Some in Hb as [[<- <-]|[_ Hb]]; [by left|].
    apply lookup_insert_Some in Hb as [[<- <-]|[_ Hb]]; [by right; left|].
    apply lookup_singleton_Some in Hb as [<- <-]. by right; right. }
  split.
  - intros b button Hb.
    destruct (Hcases _ _ Hb) as [(_ & -> & ->)|[(_ & -> & ->)|(_ & -> & ->)]];
      reflexivity.
  - intros b1 b2 button1 button2 H1 H2 He.
    destruct (Hcases _ _ H1) as [(-> & E1 & _)|[(-> & E1 & _)|(-> & E1 & _)]];
    destruct (Hcases _ _ H2) as [(-> & E2 & _)|[(-> & E2 & _)|(-> & E2 & _)]];
      congruence.
Qed.

(** X16. [updateButtonsForSelection], on buttons that each have an element
    of their own showing their state, returns whenever [tagsInSelection]
    does; afterwards each button of the list is active exactly when the tag
    of its command is one of the selected tags, and the class name of its
    element says so; every other button, and the class name of every
    element that is not of a listed button, is as before. *)
Theorem updateButtonsForSelection_reflects_selection
    (compareDocumentPosition : Element → Element → Z) (fuel : nat)
    (dom : gmap Element ContentKit.DomNode)
    (windowSelection selection : ContentKit.Selection)
    (buttons : list nat) (ui : ContentKit.Ui)
    (selectedTags : list ContentKit.StringValue) :
  ContentKit.tagsInSelection compareDocumentPosition fuel dom
    windowSelection selection = Ret selectedTags →
  ContentKit.ui_ok ui →
  Forall (λ b, is_Some (ContentKit.toolbarButtons ui !! b)) buttons →
  ∃ ui',
    ContentKit.updateButtonsForSelection compareDocumentPosition fuel dom
      windowSelection buttons selection ui = Ret ui' ∧
    ContentKit.ui_ok ui' ∧
    (∀ b button,
       b ∈ buttons → ContentKit.toolbarButtons ui !! b = Some button →
       let active :=
         bool_decide
           (ContentKit.tag (ContentKit.command button) ∈ selectedTags) in
       ContentKit.toolbarButtons ui' !! b
         = Some (ContentKit.mkToolbarButton (ContentKit.element button)
                   (ContentKit.command button) active) ∧
       ContentKit.classNames ui' !! ContentKit.element button
         = Some (if active
                 then ContentKit.buttonClassName ++ ContentKit.js " active"
                 else ContentKit.buttonClassName)) ∧
    (∀ b, b ∉ buttons →
       ContentKit.toolbarButtons ui' !! b
         = ContentKit.toolbarButtons ui !! b) ∧
    (∀ e, (∀ b button, b ∈ buttons →
             ContentKit.toolbarButtons ui !! b = Some button →
             ContentKit.element button ≠ e) →
       ContentKit.classNames ui' !! e = ContentKit.classNames ui !! e).
Proof.
  intros Htags Hok Hall.
  destruct (updateButtonsForSelection_loop_spec selectedTags buttons ui
              Hok Hall) as (ui' & Hrun & Hok' & Hbs & Hcl).
  exists ui'. split; [|split; [done|split; [|split; [|done]]]].
  - unfold ContentKit.updateButtonsForSelection. by rewrite Htags.
  - intros b button Hin Hb active.
    assert (Hb' : ContentKit.toolbarButtons ui' !! b
                  = Some (ContentKit.mkToolbarButton
                            (ContentKit.element button)
                            (ContentKit.command button) active)).
    { rewrite Hbs, map_lookup_imap, Hb. simpl. f_equal.
      unfold ContentKit.updated_button. by rewrite decide_True. }
    split; [done|].
    destruct Hok' as [Hclass _]. apply (Hclass _ _ Hb').
  - intros b Hin. rewrite Hbs, map_lookup_imap.
    destruct (ContentKit.toolbarButtons ui !! b) as [[e c a]|]; [|done].
    simpl. unfold ContentKit.updated_button. simpl.
    by rewrite decide_False.
Qed.

Lemma updateButtonsForSelection_reflects_selection_witness :
  ∃ ui',
    ContentKit.updateButtonsForSelection
      DomScenario.compareDocumentPosition 8 DomScenario.page
      (DomScenario.range 7) [0; 1; 2] (DomScenario.range 7)
      DomScenario.toolbar_ui = Ret ui' ∧
    ContentKit.isActive <$> ContentKit.toolbarButtons ui' !! 0 = Some true ∧
    ContentKit.isActive <$> ContentKit.toolbarButtons ui' !! 1 = Some false ∧
    ContentKit.isActive <$> ContentKit.toolbarButtons ui' !! 2 = Some true ∧
    ContentKit.classNames ui' !! 21
      = Some (ContentKit.js "ck-toolbar-btn").
Proof.
  destruct (updateButtonsForSelection_reflects_selection
              DomScenario.compareDocumentPosition 8 DomScenario.page
              (DomScenario.range 7) (DomScenario.range 7) [0; 1; 2]
              DomScenario.toolbar_ui
              [ContentKit.Str (ContentKit.js "B");
               ContentKit.Str (ContentKit.js "A");
               ContentKit.Str (ContentKit.js "P")])
    as (ui' & Hrun & _ & Hlisted & _);
    [reflexivity|apply toolbar_ui_ok|by repeat constructor|].
  exists ui'. split; [done|].
  destruct (Hlisted 0 _ ltac:(set_solver) eq_refl) as [H0 _].
  destruct (Hlisted 1 _ ltac:(set_solver) eq_refl) as [H1 Hc1].
  destruct (Hlisted 2 _ ltac:(set_solver) eq_refl) as [H2 _].
  rewrite H0, H1, H2. simpl in Hc1. by rewrite Hc1.
Defined.
